(** * Schema conversion from PostgreSQL to Spanner: postgres/toddl.go

    A shallow embedding of the functions of [postgres/toddl.go]
    ([schemaToDDL], [toSpannerType], [overrideExperimentalType],
    [quoteIfNeeded], [cvtPrimaryKeys], [cvtForeignKeys], [cvtIndexes]) and
    the properties of the schema translation engine proved about them.

    Conventions of the embedding:
    - a Go [string] is a [string], an [int64] is a [Z], a slice is a [list],
      a Go map is a [gmap];
    - the conversion state [*internal.Conv] is passed and returned
      explicitly; the [usedNames] map, which Go passes by reference, is
      threaded the same way;
    - a run-time panic (an index out of range, a write to a nil map) is the
      result [None] of a function into [option]. *)

From stdpp Require Import base option list strings gmap pretty.
From Stdlib Require Import ZArith.

(** ** Go values used by the source *)

(** The text of a Go [error] value. *)
Definition error := string.

(** The pair [(value, err)] returned by a fallible Go function, exactly one
    half of which is meaningful. *)
Inductive result (A : Type) : Type :=
  | Ok (a : A)
  | Err (e : error).
Arguments Ok {A} a.
Arguments Err {A} e.

(** ** Package [ddl]: the Spanner schema *)

Module ddl.

(** Modelled from the spec: package [ddl] is defined outside
    [toddl.go].  The target type tag is "a tag from a closed enumeration
    {Bool, Int64, Float64, Numeric, String, Bytes, Date, Timestamp}"; the
    tags are the values of [Type.Name], one distinct name per tag. *)
Definition Bool : string := "BOOL".
Definition Bytes : string := "BYTES".
Definition Date : string := "DATE".
Definition Float64 : string := "FLOAT64".
Definition Int64 : string := "INT64".
Definition String : string := "STRING".
Definition Timestamp : string := "TIMESTAMP".
Definition Numeric : string := "NUMERIC".

(** Modelled from the spec: the length "sentinel meaning
    maximum/unbounded", taken to be the largest [int64]. *)
Definition MaxLength : Z := 9223372036854775807%Z.

(** The eight tags of the target type vocabulary. *)
Definition TypeNames : list string :=
  [Bool; Int64; Float64; Numeric; String; Bytes; Date; Timestamp].

Module Type_.
Record t : Type := mk { Name : string; Len : Z; IsArray : bool }.
End Type_.

Module ColumnDef.
Record t : Type := mk {
  Name : string;
  T : Type_.t;
  NotNull : bool;
  Comment : string }.
End ColumnDef.

Module IndexKey.
Record t : Type := mk { Col : string; Desc : bool }.
End IndexKey.

Module Foreignkey.
Record t : Type := mk {
  Name : string;
  Columns : list string;
  ReferTable : string;
  ReferColumns : list string }.
End Foreignkey.

Module CreateIndex.
Record t : Type := mk {
  Name : string;
  Table : string;
  Unique : bool;
  Keys : list IndexKey.t }.
End CreateIndex.

Module CreateTable.
Record t : Type := mk {
  Name : string;
  ColNames : list string;
  ColDefs : gmap string ColumnDef.t;
  Pks : list IndexKey.t;
  Fks : list Foreignkey.t;
  Indexes : list CreateIndex.t;
  Comment : string }.
End CreateTable.

End ddl.

(** ** Package [schema]: the source schema *)

Module schema.

Module Type_.
Record t : Type := mk {
  Name : string;
  Mods : list Z;
  ArrayBounds : list Z }.
End Type_.

(** The flags of [Column.Ignored] that [schemaToDDL] reads. *)
Module Ignored.
Record t : Type := mk { Default : bool; ForeignKey : bool }.
End Ignored.

Module Column.
Record t : Type := mk {
  Name : string;
  Type_ : Type_.t;
  NotNull : bool;
  Ignored : Ignored.t }.

(** The zero value, which a Go map lookup yields for an absent key. *)
Definition zero : t :=
  mk "" (Type_.mk "" [] []) false (Ignored.mk false false).
End Column.

Module Key.
Record t : Type := mk { Column : string; Desc : bool }.
End Key.

Module ForeignKey.
Record t : Type := mk {
  Name : string;
  Columns : list string;
  ReferTable : string;
  ReferColumns : list string }.
End ForeignKey.

Module Index.
Record t : Type := mk {
  Name : string;
  Unique : bool;
  Keys : list Key.t }.
End Index.

Module Table.
Record t : Type := mk {
  Name : string;
  ColNames : list string;
  ColDefs : gmap string Column.t;
  PrimaryKeys : list Key.t;
  ForeignKeys : list ForeignKey.t;
  Indexes : list Index.t }.
End Table.

End schema.

(** ** Package [internal]: the conversion state and its collaborators *)

Module internal.

(** The [SchemaIssue] constants that [toddl.go] records. *)
Inductive SchemaIssue : Type :=
  | DefaultValue
  | ForeignKey
  | MultiDimensionalArray
  | NoGoodType
  | Serial
  | Timestamp
  | Widened.

(** Modelled from the spec: [internal.Conv] is declared outside
    [toddl.go].  [SrcSchema] lists the source tables in the order in
    which [range conv.SrcSchema] visits them ("iterates the source
    schema table-by-table ... in declaration order");
    [SpSchema] is keyed by Spanner table name; [Issues] is "keyed by
    (source table name, source column name)"; [Reported] is the
    diagnostic sink, the messages given to [conv.Unexpected] in order. *)
Module Conv.
Record t : Type := mk {
  SrcSchema : list schema.Table.t;
  SpSchema : gmap string ddl.CreateTable.t;
  Issues : gmap string (gmap string (list SchemaIssue));
  TargetDb : string;
  Reported : list string }.
End Conv.

(** [conv.Unexpected(u)]: "accepts free-text, non-fatal, entity-scoped
    failure notices; does not halt the run". *)
Definition Unexpected (conv : Conv.t) (u : string) : Conv.t :=
  Conv.mk (Conv.SrcSchema conv) (Conv.SpSchema conv) (Conv.Issues conv)
          (Conv.TargetDb conv) (Conv.Reported conv ++ [u]).

(** Modelled from the spec: the name resolver, "resolveTableName
    (sourceTableName) -> targetName | fails(NotFound)" and
    "resolveColumnName(sourceTableName, sourceColumnName, isKeyColumn)
    -> targetName | fails(NotFound)".  Its answers are a function of the
    names asked for; it is a parameter of the development. *)
Class NameResolver : Type := {
  GetSpannerTable : string → result string;
  GetSpannerCol : string → string → bool → result string }.

(** The identifier allocator: [ToSpannerForeignKey(name, usedNames)] and
    [ToSpannerIndexName(name, usedNames)] return the allocated name and
    update the map [usedNames] they are handed.  A parameter of the
    development; [allocate] below is the allocator the specification
    describes. *)
Class NameAllocator : Type := {
  ToSpannerForeignKey : string → gmap string bool → string * gmap string bool;
  ToSpannerIndexName : string → gmap string bool → string * gmap string bool }.

(** What else [toddl.go] calls and is defined elsewhere: the reference
    resolver ("operates on the finished target schema in place"), the
    method [schema.Type.Print] (here [Type_Print]), the UTF-8 decoding
    done by [range] over a string, and the library functions
    [unicode.IsLetter], [unicode.IsDigit], [unicode.IsPunct] and
    [strconv.Quote]. *)
Class Support : Type := {
  ResolveRefs : gmap string ddl.CreateTable.t → gmap string ddl.CreateTable.t;
  Type_Print : schema.Type_.t → string;
  runes : string → list Z;
  IsLetter : Z → bool;
  IsDigit : Z → bool;
  IsPunct : Z → bool;
  Quote : string → string }.

End internal.

(** ** Package [postgres]: toddl.go *)

Module postgres.
Import internal.

(** [case a, b, ...:] of a [switch] on a string. *)
Definition case_of (id : string) (labels : list string) : bool :=
  bool_decide (id ∈ labels).

(** The composite literal [ddl.Type{Name: name}]: [Len] and [IsArray]
    take their zero values. *)
Definition Type_Name (name : string) : ddl.Type_.t :=
  ddl.Type_.mk name 0%Z false.

(** The composite literal [ddl.Type{Name: name, Len: len}]. *)
Definition Type_Name_Len (name : string) (len : Z) : ddl.Type_.t :=
  ddl.Type_.mk name len false.

(** [toSpannerType] maps a scalar source schema type (defined by id and
    mods) into a Spanner type, and returns the Spanner type and the list
    of type conversion issues encountered. *)
Definition toSpannerType (conv : Conv.t) (id : string) (mods : list Z)
  : ddl.Type_.t * list SchemaIssue :=
  if case_of id ["bool"; "boolean"] then (Type_Name ddl.Bool, [])
  else if case_of id ["bigserial"] then (Type_Name ddl.Int64, [Serial])
  else if case_of id ["bpchar"; "character"] then
    match mods with
    | m0 :: _ => (Type_Name_Len ddl.String m0, [])
    | [] => (Type_Name_Len ddl.String 1%Z, [])
    end
  else if case_of id ["bytea"] then (Type_Name_Len ddl.Bytes ddl.MaxLength, [])
  else if case_of id ["date"] then (Type_Name ddl.Date, [])
  else if case_of id ["float8"; "double precision"] then (Type_Name ddl.Float64, [])
  else if case_of id ["float4"; "real"] then (Type_Name ddl.Float64, [Widened])
  else if case_of id ["int8"; "bigint"] then (Type_Name ddl.Int64, [])
  else if case_of id ["int4"; "integer"] then (Type_Name ddl.Int64, [Widened])
  else if case_of id ["int2"; "smallint"] then (Type_Name ddl.Int64, [Widened])
  else if case_of id ["numeric"] then (Type_Name ddl.Numeric, [])
  else if case_of id ["serial"] then (Type_Name ddl.Int64, [Serial])
  else if case_of id ["text"] then (Type_Name_Len ddl.String ddl.MaxLength, [])
  else if case_of id ["timestamptz"; "timestamp with time zone"] then
    (Type_Name ddl.Timestamp, [])
  else if case_of id ["timestamp"; "timestamp without time zone"] then
    (Type_Name ddl.Timestamp, [Timestamp])
  else if case_of id ["varchar"; "character varying"] then
    match mods with
    | m0 :: _ => (Type_Name_Len ddl.String m0, [])
    | [] => (Type_Name_Len ddl.String ddl.MaxLength, [])
    end
  else (Type_Name_Len ddl.String ddl.MaxLength, [NoGoodType]).

(** The labels of the [switch] of [toSpannerType]: the source type
    identifiers the mapper recognizes. *)
Definition recognized : list string :=
  ["bool"; "boolean"; "bigserial"; "bpchar"; "character"; "bytea"; "date";
   "float8"; "double precision"; "float4"; "real"; "int8"; "bigint";
   "int4"; "integer"; "int2"; "smallint"; "numeric"; "serial"; "text";
   "timestamptz"; "timestamp with time zone"; "timestamp";
   "timestamp without time zone"; "varchar"; "character varying"].

(** [overrideExperimentalType] overrides the types to map to
    experimental postgres types. *)
Definition overrideExperimentalType (srcCol : schema.Column.t)
    (originalType : ddl.Type_.t) : ddl.Type_.t :=
  if case_of (ddl.Type_.Name originalType) [ddl.Numeric; ddl.Date] then
    Type_Name_Len ddl.String ddl.MaxLength
  else if bool_decide
       (0 < length (schema.Type_.ArrayBounds (schema.Column.Type_ srcCol))) then
    Type_Name_Len ddl.String ddl.MaxLength
  else originalType.

(** [ty.IsArray = b]. *)
Definition set_IsArray (ty : ddl.Type_.t) (b : bool) : ddl.Type_.t :=
  ddl.Type_.mk (ddl.Type_.Name ty) (ddl.Type_.Len ty) b.

(** Lines 66-83 of [schemaToDDL]: the Spanner type of a source column
    and the issues recorded for it (the mapper, then the post-processing
    rule of the target dialect, then the ignored-feature issues). *)
Definition columnType (conv : Conv.t) (srcCol : schema.Column.t)
  : ddl.Type_.t * list SchemaIssue :=
  let srcTy := schema.Column.Type_ srcCol in
  let '(ty, issues) :=
    toSpannerType conv (schema.Type_.Name srcTy) (schema.Type_.Mods srcTy) in
  let '(ty, issues) :=
    if bool_decide (Conv.TargetDb conv = "experimental_postgres") then
      (overrideExperimentalType srcCol ty, issues)
    else
      let '(ty, issues) :=
        if bool_decide (1 < length (schema.Type_.ArrayBounds srcTy)) then
          (Type_Name_Len ddl.String ddl.MaxLength,
           issues ++ [MultiDimensionalArray])
        else (ty, issues) in
      (set_IsArray ty
         (bool_decide (length (schema.Type_.ArrayBounds srcTy) = 1)),
       issues) in
  let issues :=
    if schema.Ignored.ForeignKey (schema.Column.Ignored srcCol)
    then issues ++ [ForeignKey] else issues in
  let issues :=
    if schema.Ignored.Default (schema.Column.Ignored srcCol)
    then issues ++ [DefaultValue] else issues in
  (ty, issues).

(** *** The loops of [schemaToDDL] and of the constraint converters *)

Section Conversion.
Context `{!NameResolver, !NameAllocator, !Support}.

(** The body of the loop of [quoteIfNeeded], over the runes left. *)
Fixpoint quoteIfNeeded_loop (s : string) (rs : list Z) : string :=
  match rs with
  | [] => s
  | r :: rs =>
      if IsLetter r || IsDigit r || IsPunct r
      then quoteIfNeeded_loop s rs
      else Quote s
  end.

Definition quoteIfNeeded (s : string) : string :=
  quoteIfNeeded_loop s (runes s).

(** [conv.Issues[table] = issues]. *)
Definition set_Issues (conv : Conv.t)
    (issues : gmap string (gmap string (list SchemaIssue))) : Conv.t :=
  Conv.mk (Conv.SrcSchema conv) (Conv.SpSchema conv) issues
          (Conv.TargetDb conv) (Conv.Reported conv).

(** [conv.SpSchema = spSchema]. *)
Definition set_SpSchema (conv : Conv.t)
    (spSchema : gmap string ddl.CreateTable.t) : Conv.t :=
  Conv.mk (Conv.SrcSchema conv) spSchema (Conv.Issues conv)
          (Conv.TargetDb conv) (Conv.Reported conv).

(** [conv.Issues[table][col] = issues]: a write into the map stored
    at [conv.Issues[table]], which panics when there is none. *)
Definition record_issues (conv : Conv.t) (table col : string)
    (issues : list SchemaIssue) : option Conv.t :=
  m ← Conv.Issues conv !! table;
  Some (set_Issues conv (<[table := <[col := issues]> m]> (Conv.Issues conv))).

(** [cvtPrimaryKeys]: the loop over [srcKeys], [spKeys] being the
    keys appended so far. *)
Fixpoint cvtPrimaryKeys_loop (conv : Conv.t) (srcTable : string)
    (srcKeys : list schema.Key.t) (spKeys : list ddl.IndexKey.t)
  : Conv.t * list ddl.IndexKey.t :=
  match srcKeys with
  | [] => (conv, spKeys)
  | k :: srcKeys =>
      match GetSpannerCol srcTable (schema.Key.Column k) true with
      | Err _ =>
          cvtPrimaryKeys_loop
            (Unexpected conv ("Can't map key for table " +:+ srcTable))
            srcTable srcKeys spKeys
      | Ok spCol =>
          cvtPrimaryKeys_loop conv srcTable srcKeys
            (spKeys ++ [ddl.IndexKey.mk spCol (schema.Key.Desc k)])
      end
  end.

Definition cvtPrimaryKeys (conv : Conv.t) (srcTable : string)
    (srcKeys : list schema.Key.t) : Conv.t * list ddl.IndexKey.t :=
  cvtPrimaryKeys_loop conv srcTable srcKeys [].

(** [cvtForeignKeys]: the inner loop [for i, col := range key.Columns],
    at index [i] with [cols] left to visit.  [key.ReferColumns[i]]
    panics when [i] is out of range.  On a column that does not
    resolve, the [continue] goes on with the next column. *)
Fixpoint cvtForeignKeys_cols (conv : Conv.t) (srcTable : string)
    (key : schema.ForeignKey.t) (i : nat) (cols : list string)
    (spCols spReferCols : list string)
  : option (Conv.t * list string * list string) :=
  match cols with
  | [] => Some (conv, spCols, spReferCols)
  | col :: cols =>
      referCol ← schema.ForeignKey.ReferColumns key !! i;
      match GetSpannerCol srcTable col false,
            GetSpannerCol (schema.ForeignKey.ReferTable key) referCol false with
      | Ok spCol, Ok spReferCol =>
          cvtForeignKeys_cols conv srcTable key (S i) cols
            (spCols ++ [spCol]) (spReferCols ++ [spReferCol])
      | _, _ =>
          cvtForeignKeys_cols
            (Unexpected conv
               ("Can't map foreign key for table: " +:+ srcTable
                +:+ ", referenced table: "
                +:+ schema.ForeignKey.ReferTable key
                +:+ ", column: " +:+ col))
            srcTable key (S i) cols spCols spReferCols
      end
  end.

(** [cvtForeignKeys]: the loop over [srcKeys]. *)
Fixpoint cvtForeignKeys_loop (conv : Conv.t) (srcTable : string)
    (srcKeys : list schema.ForeignKey.t) (usedNames : gmap string bool)
    (spKeys : list ddl.Foreignkey.t)
  : option (Conv.t * list ddl.Foreignkey.t * gmap string bool) :=
  match srcKeys with
  | [] => Some (conv, spKeys, usedNames)
  | key :: srcKeys =>
      let columns := schema.ForeignKey.Columns key in
      let referColumns := schema.ForeignKey.ReferColumns key in
      let referTable := schema.ForeignKey.ReferTable key in
      if bool_decide (length columns ≠ length referColumns) then
        cvtForeignKeys_loop
          (Unexpected conv
             ("ConvertForeignKeys: columns and referColumns don't have the same lengths: len(columns)="
              +:+ pretty (length columns)
              +:+ ", len(referColumns)=" +:+ pretty (length referColumns)
              +:+ " for source table: " +:+ srcTable
              +:+ ", referenced table: " +:+ referTable))
          srcTable srcKeys usedNames spKeys
      else
        match GetSpannerTable referTable with
        | Err _ =>
            cvtForeignKeys_loop
              (Unexpected conv
                 ("Can't map foreign key for source table: " +:+ srcTable
                  +:+ ", referenced table: " +:+ referTable))
              srcTable srcKeys usedNames spKeys
        | Ok spReferTable =>
            '(conv, spCols, spReferCols) ←
              cvtForeignKeys_cols conv srcTable key 0 columns [] [];
            let '(spKeyName, usedNames) :=
              ToSpannerForeignKey (schema.ForeignKey.Name key) usedNames in
            cvtForeignKeys_loop conv srcTable srcKeys usedNames
              (spKeys ++ [ddl.Foreignkey.mk spKeyName spCols spReferTable spReferCols])
        end
  end.

Definition cvtForeignKeys (conv : Conv.t) (srcTable : string)
    (srcKeys : list schema.ForeignKey.t) (usedNames : gmap string bool)
  : option (Conv.t * list ddl.Foreignkey.t * gmap string bool) :=
  cvtForeignKeys_loop conv srcTable srcKeys usedNames [].

(** [cvtIndexes]: the inner loop over [srcIndex.Keys]. *)
Fixpoint cvtIndexes_keys (conv : Conv.t) (srcTable : string)
    (keys : list schema.Key.t) (spKeys : list ddl.IndexKey.t)
  : Conv.t * list ddl.IndexKey.t :=
  match keys with
  | [] => (conv, spKeys)
  | k :: keys =>
      match GetSpannerCol srcTable (schema.Key.Column k) true with
      | Err _ =>
          cvtIndexes_keys
            (Unexpected conv
               ("Can't map index key column name for table " +:+ srcTable))
            srcTable keys spKeys
      | Ok spCol =>
          cvtIndexes_keys conv srcTable keys
            (spKeys ++ [ddl.IndexKey.mk spCol (schema.Key.Desc k)])
      end
  end.

(** The name handed to [ToSpannerIndexName]: the declared one, or
    [fmt.Sprintf("Index_%s", srcTable)] when it is empty. *)
Definition index_name (srcTable : string) (srcIndex : schema.Index.t) : string :=
  if bool_decide (schema.Index.Name srcIndex = "")
  then "Index_" +:+ srcTable
  else schema.Index.Name srcIndex.

(** [cvtIndexes]: the loop over [srcIndexes]. *)
Fixpoint cvtIndexes_loop (conv : Conv.t) (spTableName srcTable : string)
    (srcIndexes : list schema.Index.t) (usedNames : gmap string bool)
    (spIndexes : list ddl.CreateIndex.t)
  : Conv.t * list ddl.CreateIndex.t * gmap string bool :=
  match srcIndexes with
  | [] => (conv, spIndexes, usedNames)
  | srcIndex :: srcIndexes =>
      let '(conv, spKeys) :=
        cvtIndexes_keys conv srcTable (schema.Index.Keys srcIndex) [] in
      let '(spIndexName, usedNames) :=
        ToSpannerIndexName (index_name srcTable srcIndex) usedNames in
      cvtIndexes_loop conv spTableName srcTable srcIndexes usedNames
        (spIndexes ++ [ddl.CreateIndex.mk spIndexName spTableName
                         (schema.Index.Unique srcIndex) spKeys])
  end.

Definition cvtIndexes (conv : Conv.t) (spTableName srcTable : string)
    (srcIndexes : list schema.Index.t) (usedNames : gmap string bool)
  : Conv.t * list ddl.CreateIndex.t * gmap string bool :=
  cvtIndexes_loop conv spTableName srcTable srcIndexes usedNames [].

(** [schemaToDDL]: the loop over [srcTable.ColNames]. *)
Fixpoint cvtColumns (conv : Conv.t) (srcTable : schema.Table.t)
    (colNames : list string) (spColNames : list string)
    (spColDef : gmap string ddl.ColumnDef.t)
  : option (Conv.t * list string * gmap string ddl.ColumnDef.t) :=
  match colNames with
  | [] => Some (conv, spColNames, spColDef)
  | srcColName :: colNames =>
      let srcCol :=
        default schema.Column.zero (schema.Table.ColDefs srcTable !! srcColName) in
      match GetSpannerCol (schema.Table.Name srcTable)
                          (schema.Column.Name srcCol) false with
      | Err err =>
          cvtColumns
            (Unexpected conv
               ("Couldn't map source column " +:+ schema.Table.Name srcTable
                +:+ " of table " +:+ schema.Column.Name srcCol
                +:+ " to Spanner: " +:+ err))
            srcTable colNames spColNames spColDef
      | Ok colName =>
          let spColNames := spColNames ++ [colName] in
          let '(ty, issues) := columnType conv srcCol in
          conv ←
            (if bool_decide (0 < length issues)
             then record_issues conv (schema.Table.Name srcTable)
                    (schema.Column.Name srcCol) issues
             else Some conv);
          cvtColumns conv srcTable colNames spColNames
            (<[colName :=
                 ddl.ColumnDef.mk colName ty (schema.Column.NotNull srcCol)
                   ("From: " +:+ quoteIfNeeded (schema.Column.Name srcCol)
                    +:+ " " +:+ Type_Print (schema.Column.Type_ srcCol))]> spColDef)
      end
  end.

(** [schemaToDDL]: the first loop over [conv.SrcSchema], which
    populates [usedNames] with the Spanner table names. *)
Fixpoint seedUsedNames (conv : Conv.t) (tables : list schema.Table.t)
    (usedNames : gmap string bool) : Conv.t * gmap string bool :=
  match tables with
  | [] => (conv, usedNames)
  | srcTable :: tables =>
      match GetSpannerTable (schema.Table.Name srcTable) with
      | Err err =>
          seedUsedNames
            (Unexpected conv
               ("Couldn't map source table " +:+ schema.Table.Name srcTable
                +:+ " to Spanner: " +:+ err))
            tables usedNames
      | Ok spTableName =>
          seedUsedNames conv tables (<[spTableName := true]> usedNames)
      end
  end.

(** [schemaToDDL]: the second loop over [conv.SrcSchema], which
    converts the tables.  The calls in the composite literal are made
    in the order they are written: [cvtPrimaryKeys], [cvtForeignKeys],
    [cvtIndexes]. *)
Fixpoint cvtTables (conv : Conv.t) (tables : list schema.Table.t)
    (usedNames : gmap string bool) : option (Conv.t * gmap string bool) :=
  match tables with
  | [] => Some (conv, usedNames)
  | srcTable :: tables =>
      let name := schema.Table.Name srcTable in
      match GetSpannerTable name with
      | Err err =>
          cvtTables
            (Unexpected conv
               ("Couldn't map source table " +:+ name
                +:+ " to Spanner: " +:+ err))
            tables usedNames
      | Ok spTableName =>
          let conv := set_Issues conv (<[name := ∅]> (Conv.Issues conv)) in
          '(conv, spColNames, spColDef) ←
            cvtColumns conv srcTable (schema.Table.ColNames srcTable) [] ∅;
          let comment :=
            "Spanner schema for source table " +:+ quoteIfNeeded name in
          let '(conv, pks) :=
            cvtPrimaryKeys conv name (schema.Table.PrimaryKeys srcTable) in
          '(conv, fks, usedNames) ←
            cvtForeignKeys conv name (schema.Table.ForeignKeys srcTable) usedNames;
          let '(conv, indexes, usedNames) :=
            cvtIndexes conv spTableName name (schema.Table.Indexes srcTable)
              usedNames in
          cvtTables
            (set_SpSchema conv
               (<[spTableName :=
                    ddl.CreateTable.mk spTableName spColNames spColDef
                      pks fks indexes comment]> (Conv.SpSchema conv)))
            tables usedNames
      end
  end.

(** [schemaToDDL] performs schema conversion from the source DB schema
    to Spanner.  It uses the source schema in [conv.SrcSchema], and
    writes the Spanner schema to [conv.SpSchema].  The result is the
    final state and the returned [error] ([None] for [nil]). *)
Definition schemaToDDL (conv : Conv.t) : option (Conv.t * option error) :=
  let '(conv, usedNames) := seedUsedNames conv (Conv.SrcSchema conv) ∅ in
  '(conv, _) ← cvtTables conv (Conv.SrcSchema conv) usedNames;
  Some (set_SpSchema conv (ResolveRefs (Conv.SpSchema conv)), None).

End Conversion.

End postgres.

(** ** The identifier allocator of the specification *)

Module allocator.

(** The alternative numbered [n] of a candidate: [candidate_n]. *)
Definition alternative (candidate : string) (n : nat) : string :=
  candidate +:+ "_" +:+ pretty n.

(** The first of the alternatives numbered [n], [n+1], ... that is not
    in [usedNames]; [fuel] bounds the number of alternatives looked up,
    and [size usedNames] look-ups always suffice. *)
Fixpoint first_unused (candidate : string) (usedNames : gmap string bool)
    (n fuel : nat) : string :=
  match fuel with
  | 0 => alternative candidate n
  | S fuel =>
      if bool_decide (usedNames !! alternative candidate n = None)
      then alternative candidate n
      else first_unused candidate usedNames (S n) fuel
  end.

(** Modelled from the spec: [internal.ToSpannerForeignKey] and
    [internal.ToSpannerIndexName] are defined outside [toddl.go].
    "If candidate is not in usedNames, return it unchanged and insert it.
    Otherwise deterministically derive an alternative (e.g. append an
    increasing numeric suffix, candidate_2, candidate_3, ...) and return
    the first alternative not already present, inserting it." *)
Definition allocate (candidate : string) (usedNames : gmap string bool)
  : string * gmap string bool :=
  if bool_decide (usedNames !! candidate = None)
  then (candidate, <[candidate := true]> usedNames)
  else
    let name := first_unused candidate usedNames 2 (size usedNames) in
    (name, <[name := true]> usedNames).

Definition spec_allocator : internal.NameAllocator :=
  {| internal.ToSpannerForeignKey := allocate;
     internal.ToSpannerIndexName := allocate |}.

End allocator.

(** ** Properties of runs stated below *)

Module props.
Import internal.

(** Every Spanner table name that resolves for one of [tables] is in
    [usedNames]. *)
Definition seeded `{!NameResolver} (tables : list schema.Table.t)
    (usedNames : gmap string bool) : Prop :=
  ∀ t spTableName,
    t ∈ tables →
    GetSpannerTable (schema.Table.Name t) = Ok spTableName →
    usedNames !! spTableName = Some true.

(** An allocator that removes no name from the map it is handed. *)
Definition keeps_names
    (alloc : string → gmap string bool → string * gmap string bool) : Prop :=
  ∀ candidate usedNames name,
    usedNames !! name = Some true →
    (alloc candidate usedNames).2 !! name = Some true.

(** No list of the registry holds [issue]. *)
Definition never_recorded (issue : SchemaIssue)
    (issues : gmap string (gmap string (list SchemaIssue))) : Prop :=
  ∀ table m col l,
    issues !! table = Some m → m !! col = Some l → issue ∉ l.

(** Upper-case spelling of an ASCII identifier. *)
Definition upper_char (c : Ascii.ascii) : Ascii.ascii :=
  let n := Ascii.nat_of_ascii c in
  if bool_decide (97 ≤ n ≤ 122) then Ascii.ascii_of_nat (n - 32) else c.

Fixpoint ToUpper (s : string) : string :=
  match s with
  | EmptyString => EmptyString
  | String c s => String (upper_char c) (ToUpper s)
  end.

(** The pairs of synonyms among the labels of [toSpannerType]. *)
Definition synonyms : list (string * string) :=
  [("bool", "boolean"); ("bpchar", "character");
   ("float8", "double precision"); ("float4", "real"); ("int8", "bigint");
   ("int4", "integer"); ("int2", "smallint");
   ("timestamptz", "timestamp with time zone");
   ("timestamp", "timestamp without time zone");
   ("varchar", "character varying")].

(** [String(max)]: the type [ddl.Type{Name: ddl.String, Len: ddl.MaxLength}]. *)
Definition String_max : ddl.Type_.t :=
  postgres.Type_Name_Len ddl.String ddl.MaxLength.

(** Two conversion states that differ at most in the diagnostics
    reported so far. *)
Definition agree (c1 c2 : Conv.t) : Prop :=
  Conv.SrcSchema c1 = Conv.SrcSchema c2
  ∧ Conv.SpSchema c1 = Conv.SpSchema c2
  ∧ Conv.Issues c1 = Conv.Issues c2
  ∧ Conv.TargetDb c1 = Conv.TargetDb c2.



(** Every name of [u] is a name of [u']. *)
Definition names_kept (u u' : gmap string bool) : Prop :=
  ∀ name, u !! name = Some true → u' !! name = Some true.

End props.

(** ** A small source schema, used to exercise the definitions *)

Module example.
Import internal.

(** A resolver over a fixed catalogue: the tables [orders] and
    [customers] and their columns keep their names; any other name is
    not found. *)
Definition catalogue : list (string * string) :=
  [("orders", "id"); ("orders", "customer_id"); ("orders", "tags");
   ("customers", "id")].

Definition resolver : NameResolver :=
  {| GetSpannerTable t :=
       if bool_decide (t ∈ catalogue.*1) then Ok t
       else Err "table not found";
     GetSpannerCol t c _ :=
       if bool_decide ((t, c) ∈ catalogue) then Ok c
       else Err "column not found" |}.

(** ASCII stand-ins for the library functions. *)
Definition support : Support :=
  {| ResolveRefs sp := sp;
     Type_Print ty := schema.Type_.Name ty;
     runes s := (λ c, Z.of_nat (Ascii.nat_of_ascii c)) <$> String.list_ascii_of_string s;
     IsLetter r := bool_decide (65 ≤ r ≤ 90 ∨ 97 ≤ r ≤ 122)%Z;
     IsDigit r := bool_decide (48 ≤ r ≤ 57)%Z;
     IsPunct r := bool_decide (r = 95 ∨ r = 45 ∨ r = 46)%Z;
     Quote s := String (Ascii.ascii_of_nat 34) (s +:+ String (Ascii.ascii_of_nat 34) "") |}.

Definition column (name ty : string) (mods bounds : list Z) : schema.Column.t :=
  schema.Column.mk name (schema.Type_.mk ty mods bounds) false
    (schema.Ignored.mk false false).

(** A foreign key of [orders] whose second column pair does not
    resolve: [orders] has no column [region]. *)
Definition fk_customer : schema.ForeignKey.t :=
  schema.ForeignKey.mk "fk_customer" ["customer_id"; "region"]
    "customers" ["id"; "region"].

(** An index without a declared name. *)
Definition unnamed_index : schema.Index.t :=
  schema.Index.mk "" false [schema.Key.mk "customer_id" false].

Definition orders : schema.Table.t :=
  schema.Table.mk "orders" ["id"; "customer_id"; "tags"]
    (list_to_map
       [("id", column "id" "bigserial" [] []);
        ("customer_id", column "customer_id" "int8" [] []);
        ("tags", column "tags" "text" [] [10%Z; 10%Z])])
    [schema.Key.mk "id" false]
    [fk_customer]
    [unnamed_index].

Definition customers : schema.Table.t :=
  schema.Table.mk "customers" ["id"]
    (list_to_map [("id", column "id" "int8" [] [])])
    [schema.Key.mk "id" false] [] [].

(** A table the resolver does not know. *)
Definition stray : schema.Table.t :=
  schema.Table.mk "stray" [] ∅ [] [] [].

(** A fresh conversion state for the tables [tables] and the target
    [targetDb]. *)
Definition fresh (tables : list schema.Table.t) (targetDb : string) : Conv.t :=
  Conv.mk tables ∅ ∅ targetDb [].

End example.

(** ** What the converters compute, as functions of the source *)

Module summary.
Import internal postgres.

(** [conv] after the diagnostics [us] have been reported, in order. *)
Definition reports (conv : Conv.t) (us : list string) : Conv.t :=
  Conv.mk (Conv.SrcSchema conv) (Conv.SpSchema conv) (Conv.Issues conv)
          (Conv.TargetDb conv) (Conv.Reported conv ++ us).

(** [c'] has the source schema and the target dialect of [c], and its
    diagnostics continue those of [c]. *)
Definition grows (c c' : Conv.t) : Prop :=
  Conv.SrcSchema c' = Conv.SrcSchema c
  ∧ Conv.TargetDb c' = Conv.TargetDb c
  ∧ Conv.Reported c `prefix_of` Conv.Reported c'.

(** Every list of issues held by the registry satisfies [P]. *)
Definition registry_Forall (P : list SchemaIssue → Prop)
    (issues : gmap string (gmap string (list SchemaIssue))) : Prop :=
  ∀ table m col l, issues !! table = Some m → m !! col = Some l → P l.

(** The names obtained by handing the candidates [names] to the
    allocator [alloc] one after the other, and the map it leaves. *)
Fixpoint allocate_all
    (alloc : string → gmap string bool → string * gmap string bool)
    (names : list string) (usedNames : gmap string bool)
  : list string * gmap string bool :=
  match names with
  | [] => ([], usedNames)
  | name :: names =>
      let '(x, usedNames) := alloc name usedNames in
      let '(xs, usedNames) := allocate_all alloc names usedNames in
      (x :: xs, usedNames)
  end.

(** The runes that [quoteIfNeeded] lets through. *)
Definition plain_rune `{!Support} (r : Z) : bool :=
  IsLetter r || IsDigit r || IsPunct r.

(** The labels of [toSpannerType] that read the modifiers. *)
Definition sized : list string :=
  ["bpchar"; "character"; "varchar"; "character varying"].

(** The fields of an emitted index other than its name. *)
Definition index_shape (ix : ddl.CreateIndex.t)
  : string * bool * list ddl.IndexKey.t :=
  (ddl.CreateIndex.Table ix, ddl.CreateIndex.Unique ix, ddl.CreateIndex.Keys ix).

(** A foreign key whose two column lists have the same length. *)
Definition paired (fk : ddl.Foreignkey.t) : Prop :=
  length (ddl.Foreignkey.Columns fk) = length (ddl.Foreignkey.ReferColumns fk).

Section Resolver.
Context `{!NameResolver}.

(** The value of a resolved name, if the resolver gave one. *)
Definition resolved (r : result string) : option string :=
  match r with Ok name => Some name | Err _ => None end.

(** The Spanner key of a source key column of [srcTable], if its column
    resolves as a key column. *)
Definition resolve_key (srcTable : string) (k : schema.Key.t)
  : option ddl.IndexKey.t :=
  spCol ← resolved (GetSpannerCol srcTable (schema.Key.Column k) true);
  Some (ddl.IndexKey.mk spCol (schema.Key.Desc k)).

(** The number of key columns of [ks] that do not resolve. *)
Definition unresolved_keys (srcTable : string) (ks : list schema.Key.t) : nat :=
  length (filter (λ k, resolve_key srcTable k = None) ks).

(** The Spanner names of the source tables that resolve, in order. *)
Definition resolved_tables (tables : list schema.Table.t) : list string :=
  omap (λ t, resolved (GetSpannerTable (schema.Table.Name t))) tables.

(** The Spanner name of the table a foreign key refers to, if the key is
    not dropped whole: its two column lists have the same length and its
    referenced table resolves. *)
Definition kept_table (key : schema.ForeignKey.t) : option string :=
  if bool_decide (length (schema.ForeignKey.Columns key)
                  = length (schema.ForeignKey.ReferColumns key))
  then resolved (GetSpannerTable (schema.ForeignKey.ReferTable key))
  else None.

(** The declared name of a foreign key that is not dropped whole. *)
Definition kept_name (key : schema.ForeignKey.t) : option string :=
  _ ← kept_table key; Some (schema.ForeignKey.Name key).

(** The Spanner name of the column listed as [srcColName] in
    [srcTable.ColNames], if it resolves: the resolver is asked for the
    [Name] of the entry of [srcTable.ColDefs]. *)
Definition resolve_column (srcTable : schema.Table.t) (srcColName : string)
  : option string :=
  resolved
    (GetSpannerCol (schema.Table.Name srcTable)
       (schema.Column.Name
          (default schema.Column.zero
             (schema.Table.ColDefs srcTable !! srcColName)))
       false).

End Resolver.
End summary.

(** ** Further sample inputs *)

Module sample.

(** A foreign key of [orders] both column pairs of which resolve. *)
Definition fk_orders : schema.ForeignKey.t :=
  schema.ForeignKey.mk "fk_orders" ["customer_id"] "customers" ["id"].

End sample.

(** ** The registry a run leaves, table by table *)

Module registry.
Import internal postgres.

Section Registry.
Context `{!NameResolver}.




End Registry.
End registry.

(** ** Two tables with an index of the same name *)

Module clash.

Definition idx : schema.Index.t := schema.Index.mk "idx" false [].

Definition orders : schema.Table.t :=
  schema.Table.mk "orders" [] ∅ [] [] [idx].

Definition customers : schema.Table.t :=
  schema.Table.mk "customers" [] ∅ [] [] [idx].


End clash.

(** * Properties *)

Import internal postgres props.

(** ** The type mapper *)

Lemma case_of_true id labels : case_of id labels = true → In id labels.
Proof.
  unfold case_of. intros H. apply bool_decide_eq_true in H.
  by apply list_elem_of_In.
Qed.

Ltac switch_id :=
  match goal with
  | |- context [case_of ?id ?labels] =>
      let E := fresh "E" in destruct (case_of id labels) eqn:E
  end.

Ltac elem_of_closed := repeat constructor.

Ltac label_recognized :=
  let Hn := fresh "Hn" in
  intros Hn; exfalso;
  match goal with
  | H : case_of _ _ = true |- _ =>
      apply case_of_true in H; simpl in H; destruct_or?; subst;
      try contradiction; apply Hn; unfold recognized; elem_of_closed
  end.

(** C2: the type mapper is total: for every identifier and modifiers it
    returns one target type, whose tag is one of the eight tags of
    [ddl.TypeNames]; an identifier that is none of the labels of the
    [switch] yields [String] with the maximum length and exactly the issue
    [NoGoodType]. *)
Theorem toSpannerType_total (conv : Conv.t) (id : string) (mods : list Z) :
  ∃ ty issues,
    toSpannerType conv id mods = (ty, issues)
    ∧ ddl.Type_.Name ty ∈ ddl.TypeNames
    ∧ (id ∉ recognized →
       ty = Type_Name_Len ddl.String ddl.MaxLength ∧ issues = [NoGoodType]).
Proof.
  unfold toSpannerType.
  repeat switch_id; try destruct mods;
    (eexists _, _; split; [reflexivity|]; split;
      [ simpl; unfold ddl.TypeNames; elem_of_closed
      | first [ done | label_recognized ] ]).
Qed.

Lemma toSpannerType_total_witness :
  toSpannerType (example.fresh [] "spanner") "jsonb" []
  = (String_max, [NoGoodType]).
Proof.
  destruct (toSpannerType_total (example.fresh [] "spanner") "jsonb" [])
    as (ty & issues & Heq & _ & Hunknown).
  destruct Hunknown as [-> ->]; [|exact Heq].
  intros Hin. apply list_elem_of_In in Hin. simpl in Hin.
  intuition discriminate.
Defined.

(** C3, as the claim states it, fails: the spelling [char] is not a
    synonym of [bpchar], and [BOOL] does not map as [bool] does. *)
Lemma toSpannerType_exact_cex :
  toSpannerType (example.fresh [] "spanner") "char" [5%Z]
    ≠ (Type_Name_Len ddl.String 5, [])
  ∧ toSpannerType (example.fresh [] "spanner") "BOOL" []
    ≠ toSpannerType (example.fresh [] "spanner") "bool" [].
Proof. split; vm_compute; discriminate. Qed.

(** C3, amended: the type mapper matches source type identifiers exactly,
    case-sensitively, and merges the synonyms listed in its [switch];
    [bpchar] and [character] with a length [N] map to [String] of length
    [N]; the spelling [char] and the upper-case spelling of every
    recognized identifier (such as [BOOL]) are not recognized and map to
    [String(max)] with the issue [NoGoodType]. *)
Theorem toSpannerType_exact (conv : Conv.t) (mods : list Z) :
  (∀ N : Z,
     toSpannerType conv "bpchar" (N :: mods) = (Type_Name_Len ddl.String N, [])
     ∧ toSpannerType conv "character" (N :: mods) = (Type_Name_Len ddl.String N, []))
  ∧ Forall (λ p, toSpannerType conv p.1 mods = toSpannerType conv p.2 mods) synonyms
  ∧ toSpannerType conv "char" mods = (String_max, [NoGoodType])
  ∧ Forall (λ id, toSpannerType conv (ToUpper id) mods = (String_max, [NoGoodType]))
      recognized.
Proof.
  split; [by intros N|].
  split; [by repeat constructor|].
  split; [done|].
  by repeat constructor.
Qed.

Lemma toSpannerType_IsArray conv id mods :
  ddl.Type_.IsArray (toSpannerType conv id mods).1 = false.
Proof. unfold toSpannerType. repeat switch_id; try destruct mods; done. Qed.

Lemma toSpannerType_issues conv id mods :
  MultiDimensionalArray ∉ (toSpannerType conv id mods).2.
Proof.
  unfold toSpannerType.
  repeat switch_id; try destruct mods; simpl; rewrite list_elem_of_In; simpl; intuition discriminate.
Qed.

Lemma toSpannerType_recognized conv mods :
  Forall (λ id, NoGoodType ∉ (toSpannerType conv id mods).2) recognized.
Proof.
  unfold recognized.
  repeat (constructor;
          [destruct mods;
           match goal with
           | |- _ ∉ ?t => let v := eval vm_compute in t in change t with v
           end;
           rewrite list_elem_of_In; simpl; intuition discriminate|]).
  constructor.
Qed.

(** C4: in standard mode, a column with more than one array dimension
    gets [String(max)] with the array flag false and the issue
    [MultiDimensionalArray] appended to those of the mapper; a column with
    exactly one array dimension gets the mapped type with the array flag
    set; a column with none gets the mapped type, array flag not set. *)
Theorem columnType_standard (conv : Conv.t) (srcCol : schema.Column.t) :
  Conv.TargetDb conv ≠ "experimental_postgres" →
  let srcTy := schema.Column.Type_ srcCol in
  let dims := length (schema.Type_.ArrayBounds srcTy) in
  let base := toSpannerType conv (schema.Type_.Name srcTy) (schema.Type_.Mods srcTy) in
  (1 < dims →
     (columnType conv srcCol).1 = ddl.Type_.mk ddl.String ddl.MaxLength false
     ∧ ∃ rest, (columnType conv srcCol).2 = base.2 ++ MultiDimensionalArray :: rest)
  ∧ (dims = 1 →
     (columnType conv srcCol).1
       = ddl.Type_.mk (ddl.Type_.Name base.1) (ddl.Type_.Len base.1) true)
  ∧ (dims = 0 →
     (columnType conv srcCol).1 = base.1
     ∧ ddl.Type_.IsArray (columnType conv srcCol).1 = false).
Proof.
  intros Hdb srcTy dims base.
  pose proof (toSpannerType_IsArray conv (schema.Type_.Name srcTy) (schema.Type_.Mods srcTy)) as Harr.
  unfold columnType. fold srcTy. fold dims. fold base. fold base in Harr.
  destruct base as [ty issues]. simpl in *.
  rewrite bool_decide_eq_false_2 by done.
  split; [|split]; intros Hd.
  - rewrite bool_decide_eq_true_2 by done.
    rewrite bool_decide_eq_false_2 by lia. split; [done|].
    repeat case_match; rewrite <- ?(assoc_L (++)); simpl; eauto.
  - rewrite bool_decide_eq_false_2 by lia.
    rewrite bool_decide_eq_true_2 by done. done.
  - rewrite !bool_decide_eq_false_2 by lia. simpl.
    split; [|done]. destruct ty; simpl in *; by subst.
Qed.

Lemma columnType_standard_witness :
  (columnType (example.fresh [] "spanner")
     (example.column "tags" "text" [] [10%Z; 10%Z])).1
  = ddl.Type_.mk ddl.String ddl.MaxLength false.
Proof.
  apply (proj1 (columnType_standard (example.fresh [] "spanner")
                  (example.column "tags" "text" [] [10%Z; 10%Z])
                  ltac:(discriminate))).
  simpl. lia.
Defined.

(** C5: in the experimental dialect, a column whose mapped type is
    [Numeric] or [Date] gets [String(max)], a column with one or more
    array dimensions gets [String(max)], and the array flag of the
    resulting type is never set. *)
Theorem columnType_experimental (conv : Conv.t) (srcCol : schema.Column.t) :
  Conv.TargetDb conv = "experimental_postgres" →
  let srcTy := schema.Column.Type_ srcCol in
  let base := toSpannerType conv (schema.Type_.Name srcTy) (schema.Type_.Mods srcTy) in
  (ddl.Type_.Name base.1 = ddl.Numeric ∨ ddl.Type_.Name base.1 = ddl.Date →
     (columnType conv srcCol).1 = String_max)
  ∧ (0 < length (schema.Type_.ArrayBounds srcTy) →
     (columnType conv srcCol).1 = String_max)
  ∧ ddl.Type_.IsArray (columnType conv srcCol).1 = false.
Proof.
  intros Hdb srcTy base.
  pose proof (toSpannerType_IsArray conv (schema.Type_.Name srcTy)
                (schema.Type_.Mods srcTy)) as Harr.
  unfold columnType. fold srcTy. fold base. fold base in Harr.
  destruct base as [ty issues]. simpl in *.
  rewrite bool_decide_eq_true_2 by done. simpl.
  unfold overrideExperimentalType, case_of. fold srcTy.
  split; [|split].
  - intros Hname. rewrite bool_decide_eq_true_2; [done|].
    rewrite !elem_of_cons. tauto.
  - intros Hdims. case_bool_decide; [done|].
    by rewrite bool_decide_eq_true_2.
  - repeat case_bool_decide; done.
Qed.

Lemma columnType_experimental_witness :
  (columnType (example.fresh [] "experimental_postgres")
     (example.column "price" "numeric" [] [])).1 = String_max
  ∧ (columnType (example.fresh [] "experimental_postgres")
       (example.column "tags" "int8" [] [3%Z])).1 = String_max.
Proof.
  split.
  - apply (proj1 (columnType_experimental
             (example.fresh [] "experimental_postgres")
             (example.column "price" "numeric" [] []) eq_refl)).
    left. reflexivity.
  - apply (proj1 (proj2 (columnType_experimental
             (example.fresh [] "experimental_postgres")
             (example.column "tags" "int8" [] [3%Z]) eq_refl))).
    simpl. lia.
Defined.

(** ** The identifier allocator of the specification *)

Section Allocator.
Import allocator.

Lemma alternative_inj candidate : Inj (=) (=) (alternative candidate).
Proof.
  intros k1 k2 Heq. unfold alternative in Heq.
  apply (inj (String.app candidate)) in Heq.
  apply (inj (String.app "_")) in Heq.
  by apply (inj pretty) in Heq.
Qed.

Lemma first_unused_spec candidate (usedNames : gmap string bool) fuel :
  ∀ n (rest : gset string),
    (∀ s, is_Some (usedNames !! s) →
          s ∈ rest ∨ ∃ k, k < n ∧ s = alternative candidate k) →
    size rest ≤ fuel →
    ∃ m, n ≤ m
      ∧ first_unused candidate usedNames n fuel = alternative candidate m
      ∧ usedNames !! alternative candidate m = None
      ∧ ∀ k, n ≤ k < m → usedNames !! alternative candidate k ≠ None.
Proof.
  induction fuel as [|fuel IH]; intros n rest Hcover Hsize; simpl.
  - exists n. split_and!; [done|done| |intros; lia].
    apply eq_None_not_Some. intros Hs.
    destruct (Hcover _ Hs) as [Hin|(k & Hk & Heq)].
    + assert (rest = ∅) as -> by (apply leibniz_equiv, size_empty_inv; lia).
      set_solver.
    + apply alternative_inj in Heq. lia.
  - case_bool_decide as Hfree.
    { exists n. split_and!; [done|done|done|intros; lia]. }
    assert (is_Some (usedNames !! alternative candidate n)) as Hs.
    { by apply not_eq_None_Some. }
    assert (alternative candidate n ∈ rest) as Hin.
    { destruct (Hcover _ Hs) as [?|(k & Hk & Heq)]; [done|].
      apply alternative_inj in Heq. lia. }
    destruct (IH (S n) (rest ∖ {[alternative candidate n]}))
      as (m & Hm & Hres & Hnone & Hbelow).
    + intros s Hs'.
      destruct (decide (s = alternative candidate n)) as [->|Hne].
      { right. exists n. split; [lia|done]. }
      destruct (Hcover _ Hs') as [?|(k & Hk & Heq)].
      * left. set_solver.
      * right. exists k. split; [lia|done].
    + rewrite size_difference by set_solver.
      rewrite size_singleton. lia.
    + exists m. split_and!; [lia|done|done|].
      intros k Hk. destruct (decide (k = n)) as [->|]; [done|].
      apply Hbelow. lia.
Qed.

Lemma allocate_free candidate (usedNames : gmap string bool) :
  usedNames !! candidate = None →
  allocate candidate usedNames = (candidate, <[candidate := true]> usedNames).
Proof. intros Hfree. unfold allocate. by rewrite bool_decide_eq_true_2. Qed.

Lemma allocate_collision candidate (usedNames : gmap string bool) :
  usedNames !! candidate ≠ None →
  ∃ n, 2 ≤ n
    ∧ allocate candidate usedNames
      = (alternative candidate n, <[alternative candidate n := true]> usedNames)
    ∧ usedNames !! alternative candidate n = None
    ∧ ∀ k, 2 ≤ k < n → usedNames !! alternative candidate k ≠ None.
Proof.
  intros Hused. unfold allocate. rewrite bool_decide_eq_false_2 by done.
  destruct (first_unused_spec candidate usedNames (size usedNames) 2 (dom usedNames))
    as (m & Hm & Hres & Hnone & Hbelow).
  - intros s Hs. left. by apply elem_of_dom.
  - by rewrite size_dom.
  - exists m. rewrite Hres. done.
Qed.

Lemma allocate_keeps_names : keeps_names allocate.
Proof.
  intros candidate usedNames name Hname. unfold allocate.
  case_bool_decide; simpl.
  - destruct (decide (candidate = name)) as [->|]; [congruence|].
    by rewrite lookup_insert_ne.
  - rewrite lookup_insert. case_decide; done.
Qed.
End Allocator.

(** ** The loops only report diagnostics, and do not depend on them *)

Section Frame.
Context `{!NameResolver, !NameAllocator, !Support}.

Lemma agree_refl c : agree c c.
Proof. by repeat split. Qed.

Lemma agree_trans c1 c2 c3 : agree c1 c2 → agree c2 c3 → agree c1 c3.
Proof. unfold agree. intros (?&?&?&?) (?&?&?&?). repeat split; congruence. Qed.

Lemma agree_Unexpected c1 c2 u1 u2 :
  agree c1 c2 → agree (Unexpected c1 u1) (Unexpected c2 u2).
Proof. by intros (?&?&?&?). Qed.

Lemma agree_Unexpected_r c u : agree c (Unexpected c u).
Proof. by repeat split. Qed.

#[local] Hint Resolve agree_refl agree_Unexpected agree_Unexpected_r : core.

(** The converters and the seeding loop only report diagnostics. *)

Lemma cvtPrimaryKeys_loop_frame conv srcTable srcKeys spKeys :
  agree conv (cvtPrimaryKeys_loop conv srcTable srcKeys spKeys).1.
Proof.
  revert conv spKeys. induction srcKeys as [|k srcKeys IH]; intros; simpl; [done|].
  destruct (GetSpannerCol _ _ _); [apply IH|].
  eapply agree_trans; [|apply IH]. done.
Qed.

Lemma cvtForeignKeys_cols_frame srcTable key cols :
  ∀ conv i spCols spReferCols conv' spCols' spReferCols',
    cvtForeignKeys_cols conv srcTable key i cols spCols spReferCols
      = Some (conv', spCols', spReferCols') →
    agree conv conv'.
Proof.
  induction cols as [|col cols IH]; intros * Hrun; simpl in Hrun.
  { by simplify_eq. }
  destruct (schema.ForeignKey.ReferColumns key !! i) as [referCol|]; [|done].
  simpl in Hrun.
  destruct (GetSpannerCol srcTable col false);
    [destruct (GetSpannerCol _ referCol false)|].
  - by eapply IH.
  - eapply agree_trans; [|by eapply IH]. done.
  - eapply agree_trans; [|by eapply IH]. done.
Qed.

Lemma cvtForeignKeys_loop_frame srcTable srcKeys :
  ∀ conv usedNames spKeys conv' spKeys' usedNames',
    cvtForeignKeys_loop conv srcTable srcKeys usedNames spKeys
      = Some (conv', spKeys', usedNames') →
    agree conv conv'.
Proof.
  induction srcKeys as [|key srcKeys IH]; intros * Hrun; simpl in Hrun.
  { by simplify_eq. }
  case_bool_decide.
  { eapply agree_trans; [|by eapply IH]. done. }
  destruct (GetSpannerTable _).
  - destruct (cvtForeignKeys_cols _ _ _ _ _ _ _) as [[[c0 a0] b0]|] eqn:Hcols; [|done].
    simpl in Hrun. destruct (ToSpannerForeignKey _ _).
    eapply agree_trans; [by eapply cvtForeignKeys_cols_frame|by eapply IH].
  - eapply agree_trans; [|by eapply IH]. done.
Qed.

Lemma cvtIndexes_keys_frame conv srcTable keys spKeys :
  agree conv (cvtIndexes_keys conv srcTable keys spKeys).1.
Proof.
  revert conv spKeys. induction keys as [|k keys IH]; intros; simpl; [done|].
  destruct (GetSpannerCol _ _ _); [apply IH|].
  eapply agree_trans; [|apply IH]. done.
Qed.

Lemma cvtIndexes_loop_frame conv spTableName srcTable srcIndexes usedNames spIndexes :
  agree conv
    (cvtIndexes_loop conv spTableName srcTable srcIndexes usedNames spIndexes).1.1.
Proof.
  revert conv usedNames spIndexes.
  induction srcIndexes as [|idx srcIndexes IH]; intros; simpl; [done|].
  pose proof (cvtIndexes_keys_frame conv srcTable (schema.Index.Keys idx) []) as Hk.
  destruct (cvtIndexes_keys _ _ _ _) as [c ks]. destruct (ToSpannerIndexName _ _).
  eapply agree_trans; [exact Hk|apply IH].
Qed.

Lemma seedUsedNames_frame conv tables usedNames :
  agree conv (seedUsedNames conv tables usedNames).1.
Proof.
  revert conv usedNames. induction tables as [|t tables IH]; intros; simpl; [done|].
  destruct (GetSpannerTable _); [apply IH|].
  eapply agree_trans; [|apply IH]. done.
Qed.

(** What they compute does not depend on the diagnostics reported so far. *)










End Frame.

(** ** Runs of the loops *)

Section Runs.
Context `{!NameResolver, !NameAllocator, !Support}.

(** *** No loop panics *)

Lemma cvtForeignKeys_cols_returns srcTable key cols :
  ∀ conv i spCols spReferCols,
    i + length cols ≤ length (schema.ForeignKey.ReferColumns key) →
    is_Some (cvtForeignKeys_cols conv srcTable key i cols spCols spReferCols).
Proof.
  induction cols as [|col cols IH]; intros * Hlen; simpl in *; [done|].
  destruct (lookup_lt_is_Some_2 (schema.ForeignKey.ReferColumns key) i)
    as [referCol ->]; [lia|]. simpl.
  destruct (GetSpannerCol srcTable col false);
    [destruct (GetSpannerCol _ referCol false)|]; apply IH; lia.
Qed.

Lemma cvtForeignKeys_loop_returns srcTable srcKeys :
  ∀ conv usedNames spKeys,
    is_Some (cvtForeignKeys_loop conv srcTable srcKeys usedNames spKeys).
Proof.
  induction srcKeys as [|key srcKeys IH]; intros; simpl; [done|].
  case_bool_decide as Hlen; [apply IH|].
  destruct (GetSpannerTable _); [|apply IH].
  destruct (cvtForeignKeys_cols_returns srcTable key
              (schema.ForeignKey.Columns key) conv 0 [] []) as [[[c ?] ?] ->];
    [lia|].
  simpl. destruct (ToSpannerForeignKey _ _). apply IH.
Qed.

Lemma cvtColumns_returns srcTable colNames :
  ∀ conv spColNames spColDef,
    is_Some (Conv.Issues conv !! schema.Table.Name srcTable) →
    is_Some (cvtColumns conv srcTable colNames spColNames spColDef).
Proof.
  induction colNames as [|n colNames IH]; intros * Hreg; simpl; [done|].
  destruct (GetSpannerCol _ _ _); [|by apply IH].
  destruct (columnType conv _) as [ty issues].
  case_bool_decide; simpl; [|by apply IH].
  unfold record_issues. destruct Hreg as [m ->]. simpl.
  apply IH. simpl. rewrite lookup_insert_eq. done.
Qed.

Lemma cvtTables_returns tables :
  ∀ conv usedNames, is_Some (cvtTables conv tables usedNames).
Proof.
  induction tables as [|t tables IH]; intros; simpl; [done|].
  destruct (GetSpannerTable _) as [spTableName|]; [|apply IH].
  destruct (cvtColumns_returns t (schema.Table.ColNames t)
              (set_Issues conv (<[schema.Table.Name t := ∅]> (Conv.Issues conv)))
              [] ∅) as [[[c ?] ?] ->].
  { simpl. rewrite lookup_insert_eq. done. }
  simpl. destruct (cvtPrimaryKeys c _ _) as [c' pks].
  destruct (cvtForeignKeys_loop_returns (schema.Table.Name t)
              (schema.Table.ForeignKeys t) c' usedNames []) as [[[d f] u] Hfk].
  unfold cvtForeignKeys. rewrite Hfk. simpl.
  destruct (cvtIndexes d _ _ _ _) as [[e i] v]. apply IH.
Qed.

Lemma schemaToDDL_returns conv :
  ∃ conv', schemaToDDL conv = Some (conv', None).
Proof.
  unfold schemaToDDL.
  destruct (seedUsedNames conv _ _) as [c u].
  destruct (cvtTables_returns (Conv.SrcSchema c) c u) as [[c' u'] ->].
  simpl. eauto.
Qed.

(** *** Foreign keys that are dropped whole, and the shape of those kept *)

Lemma cvtForeignKeys_loop_length_mismatch conv srcTable key srcKeys usedNames spKeys :
  length (schema.ForeignKey.Columns key)
    ≠ length (schema.ForeignKey.ReferColumns key) →
  ∃ u,
    cvtForeignKeys_loop conv srcTable (key :: srcKeys) usedNames spKeys
    = cvtForeignKeys_loop (Unexpected conv u) srcTable srcKeys usedNames spKeys.
Proof. intros Hlen. simpl. rewrite bool_decide_eq_true_2 by done. eauto. Qed.

Lemma cvtForeignKeys_loop_refer_table conv srcTable key srcKeys usedNames spKeys e :
  length (schema.ForeignKey.Columns key)
    = length (schema.ForeignKey.ReferColumns key) →
  GetSpannerTable (schema.ForeignKey.ReferTable key) = Err e →
  ∃ u,
    cvtForeignKeys_loop conv srcTable (key :: srcKeys) usedNames spKeys
    = cvtForeignKeys_loop (Unexpected conv u) srcTable srcKeys usedNames spKeys.
Proof.
  intros Hlen Hres. simpl. rewrite bool_decide_eq_false_2 by (intros ?; done).
  rewrite Hres. eauto.
Qed.

Lemma cvtForeignKeys_cols_pairs srcTable key cols :
  ∀ conv i spCols spReferCols conv' spCols' spReferCols',
    length spCols = length spReferCols →
    cvtForeignKeys_cols conv srcTable key i cols spCols spReferCols
      = Some (conv', spCols', spReferCols') →
    length spCols' = length spReferCols'.
Proof.
  induction cols as [|col cols IH]; intros * Hlen Hrun; simpl in Hrun.
  { by simplify_eq. }
  destruct (schema.ForeignKey.ReferColumns key !! i) as [referCol|]; [|done].
  simpl in Hrun.
  destruct (GetSpannerCol srcTable col false);
    [destruct (GetSpannerCol _ referCol false)|];
    (eapply IH; [|exact Hrun]); rewrite ?length_app; simpl; lia.
Qed.

Lemma cvtForeignKeys_loop_pairs srcTable srcKeys :
  ∀ conv usedNames spKeys conv' spKeys' usedNames',
    Forall (λ fk, length (ddl.Foreignkey.Columns fk)
                  = length (ddl.Foreignkey.ReferColumns fk)) spKeys →
    cvtForeignKeys_loop conv srcTable srcKeys usedNames spKeys
      = Some (conv', spKeys', usedNames') →
    Forall (λ fk, length (ddl.Foreignkey.Columns fk)
                  = length (ddl.Foreignkey.ReferColumns fk)) spKeys'.
Proof.
  induction srcKeys as [|key srcKeys IH]; intros * Hacc Hrun; simpl in Hrun.
  { by simplify_eq. }
  case_bool_decide; [by eapply IH|].
  destruct (GetSpannerTable _); [|by eapply IH].
  destruct (cvtForeignKeys_cols _ _ _ _ _ _ _) as [[[c ?] ?]|] eqn:Hcols; [|done].
  apply cvtForeignKeys_cols_pairs in Hcols; [|done].
  simpl in Hrun. destruct (ToSpannerForeignKey _ _) as [name u].
  eapply IH; [|exact Hrun]. apply Forall_app. split; [done|].
  by constructor.
Qed.

(** *** The issue registry in the experimental dialect *)

Lemma columnType_experimental_issues conv srcCol :
  Conv.TargetDb conv = "experimental_postgres" →
  MultiDimensionalArray ∉ (columnType conv srcCol).2.
Proof.
  intros Hdb. unfold columnType.
  pose proof (toSpannerType_issues conv
    (schema.Type_.Name (schema.Column.Type_ srcCol))
    (schema.Type_.Mods (schema.Column.Type_ srcCol))) as Hbase.
  destruct (toSpannerType _ _ _) as [ty issues]. simpl in *.
  rewrite bool_decide_eq_true_2 by done.
  repeat case_match; simpl; rewrite ?not_elem_of_app, ?list_elem_of_singleton;
    naive_solver.
Qed.

Lemma never_recorded_reset issue table issues :
  never_recorded issue issues →
  never_recorded issue (<[table := ∅]> issues).
Proof.
  intros Hreg t m col l Ht Hm.
  destruct (decide (table = t)) as [->|Hne].
  - rewrite lookup_insert_eq in Ht. by simplify_eq.
  - rewrite lookup_insert_ne in Ht by done. eauto.
Qed.

Lemma never_recorded_insert issue table col l m issues :
  never_recorded issue issues →
  issues !! table = Some m →
  issue ∉ l →
  never_recorded issue (<[table := <[col := l]> m]> issues).
Proof.
  intros Hreg Hm Hl t m' col' l' Ht Hm'.
  destruct (decide (table = t)) as [->|Hne].
  - rewrite lookup_insert_eq in Ht. simplify_eq.
    destruct (decide (col = col')) as [->|Hc].
    + rewrite lookup_insert_eq in Hm'. by simplify_eq.
    + rewrite lookup_insert_ne in Hm' by done. eauto.
  - rewrite lookup_insert_ne in Ht by done. eauto.
Qed.

Lemma cvtColumns_never_recorded srcTable colNames :
  ∀ conv spColNames spColDef conv' spColNames' spColDef',
    Conv.TargetDb conv = "experimental_postgres" →
    never_recorded MultiDimensionalArray (Conv.Issues conv) →
    cvtColumns conv srcTable colNames spColNames spColDef
      = Some (conv', spColNames', spColDef') →
    Conv.TargetDb conv' = "experimental_postgres"
    ∧ never_recorded MultiDimensionalArray (Conv.Issues conv').
Proof.
  induction colNames as [|n colNames IH]; intros * Hdb Hreg Hrun; simpl in Hrun.
  { by simplify_eq. }
  destruct (GetSpannerCol _ _ _); [|by eapply IH; [| |exact Hrun]].
  pose proof (columnType_experimental_issues conv
    (default schema.Column.zero (schema.Table.ColDefs srcTable !! n)) Hdb) as Hty.
  destruct (columnType conv _) as [ty issues]. simpl in Hty.
  case_bool_decide; simpl in Hrun; [|by eapply IH; [| |exact Hrun]].
  unfold record_issues in Hrun.
  destruct (Conv.Issues conv !! schema.Table.Name srcTable) as [m|] eqn:Hm;
    [|done].
  simpl in Hrun. eapply IH; [| |exact Hrun]; simpl; [done|].
  by apply never_recorded_insert.
Qed.

Lemma cvtTables_never_recorded tables :
  ∀ conv usedNames conv' usedNames',
    Conv.TargetDb conv = "experimental_postgres" →
    never_recorded MultiDimensionalArray (Conv.Issues conv) →
    cvtTables conv tables usedNames = Some (conv', usedNames') →
    never_recorded MultiDimensionalArray (Conv.Issues conv').
Proof.
  induction tables as [|t tables IH]; intros * Hdb Hreg Hrun; simpl in Hrun.
  { by simplify_eq. }
  destruct (GetSpannerTable _) as [spTableName|];
    [|by eapply IH; [| |exact Hrun]].
  destruct (cvtColumns _ _ _ _ _) as [[[c ?] ?]|] eqn:Hcols; [|done].
  apply cvtColumns_never_recorded in Hcols as [Hdb1 Hreg1];
    [|done|by apply never_recorded_reset].
  simpl in Hrun.
  pose proof (cvtPrimaryKeys_loop_frame c (schema.Table.Name t)
                (schema.Table.PrimaryKeys t) []) as Hpk.
  unfold cvtPrimaryKeys in Hrun.
  destruct (cvtPrimaryKeys_loop c _ _ _) as [c' pks]. simpl in Hpk.
  destruct (cvtForeignKeys c' _ _ _) as [[[d f] u]|] eqn:Hfk; [|done].
  apply cvtForeignKeys_loop_frame in Hfk. simpl in Hrun.
  pose proof (cvtIndexes_loop_frame d spTableName (schema.Table.Name t)
                (schema.Table.Indexes t) u []) as Hix.
  unfold cvtIndexes in Hrun.
  destruct (cvtIndexes_loop d _ _ _ _ _) as [[e i] v]. simpl in Hix.
  destruct Hpk as (_&_&Hi1&Hd1), Hfk as (_&_&Hi2&Hd2), Hix as (_&_&Hi3&Hd3).
  eapply IH; [| |exact Hrun]; unfold set_SpSchema; simpl.
  - by rewrite <- Hd3, <- Hd2, <- Hd1.
  - by rewrite <- Hi3, <- Hi2, <- Hi1.
Qed.

(** *** The names in [usedNames] *)

Lemma names_kept_refl u : names_kept u u.
Proof. by intros ?. Qed.

Lemma names_kept_trans u1 u2 u3 :
  names_kept u1 u2 → names_kept u2 u3 → names_kept u1 u3.
Proof. intros H12 H23 name ?. by apply H23, H12. Qed.

Lemma names_kept_insert u name : names_kept u (<[name := true]> u).
Proof.
  intros n Hn. destruct (decide (name = n)) as [->|].
  - by rewrite lookup_insert_eq.
  - by rewrite lookup_insert_ne.
Qed.

Lemma seedUsedNames_keeps tables :
  ∀ conv usedNames, names_kept usedNames (seedUsedNames conv tables usedNames).2.
Proof.
  induction tables as [|t tables IH]; intros; simpl; [apply names_kept_refl|].
  destruct (GetSpannerTable _); [|apply IH].
  eapply names_kept_trans; [apply names_kept_insert|apply IH].
Qed.

Lemma seedUsedNames_seeded tables :
  ∀ conv usedNames, seeded tables (seedUsedNames conv tables usedNames).2.
Proof.
  induction tables as [|t tables IH]; intros conv usedNames t' sp Hin Hsp.
  { by apply elem_of_nil in Hin. }
  apply elem_of_cons in Hin as [->|Hin]; simpl.
  - rewrite Hsp. apply seedUsedNames_keeps. by rewrite lookup_insert_eq.
  - destruct (GetSpannerTable (schema.Table.Name t)); by eapply IH.
Qed.

Lemma cvtForeignKeys_loop_keeps srcTable srcKeys :
  keeps_names ToSpannerForeignKey →
  ∀ conv usedNames spKeys conv' spKeys' usedNames',
    cvtForeignKeys_loop conv srcTable srcKeys usedNames spKeys
      = Some (conv', spKeys', usedNames') →
    names_kept usedNames usedNames'.
Proof.
  intros Halloc.
  induction srcKeys as [|key srcKeys IH]; intros * Hrun; simpl in Hrun.
  { simplify_eq. apply names_kept_refl. }
  case_bool_decide; [by eapply IH|].
  destruct (GetSpannerTable _); [|by eapply IH].
  destruct (cvtForeignKeys_cols _ _ _ _ _ _ _) as [[[c ?] ?]|]; [|done].
  simpl in Hrun.
  pose proof (Halloc (schema.ForeignKey.Name key) usedNames) as Hk.
  destruct (ToSpannerForeignKey _ _) as [name u].
  eapply names_kept_trans; [exact Hk|by eapply IH].
Qed.

Lemma cvtIndexes_loop_keeps spTableName srcTable srcIndexes :
  keeps_names ToSpannerIndexName →
  ∀ conv usedNames spIndexes,
    names_kept usedNames
      (cvtIndexes_loop conv spTableName srcTable srcIndexes usedNames spIndexes).2.
Proof.
  intros Halloc.
  induction srcIndexes as [|idx srcIndexes IH]; intros; simpl.
  { apply names_kept_refl. }
  destruct (cvtIndexes_keys _ _ _ _) as [c ks].
  pose proof (Halloc (index_name srcTable idx) usedNames) as Hk.
  destruct (ToSpannerIndexName _ _) as [name u].
  eapply names_kept_trans; [exact Hk|apply IH].
Qed.

Lemma cvtTables_keeps tables :
  keeps_names ToSpannerForeignKey →
  keeps_names ToSpannerIndexName →
  ∀ conv usedNames conv' usedNames',
    cvtTables conv tables usedNames = Some (conv', usedNames') →
    names_kept usedNames usedNames'.
Proof.
  intros Hfk Hix.
  induction tables as [|t tables IH]; intros * Hrun; simpl in Hrun.
  { simplify_eq. apply names_kept_refl. }
  destruct (GetSpannerTable _) as [spTableName|]; [|by eapply IH].
  destruct (cvtColumns _ _ _ _ _) as [[[c ?] ?]|]; [|done]. simpl in Hrun.
  destruct (cvtPrimaryKeys c _ _) as [c' pks].
  destruct (cvtForeignKeys c' _ _ _) as [[[d f] u]|] eqn:Hrunfk; [|done].
  apply cvtForeignKeys_loop_keeps in Hrunfk; [|done]. simpl in Hrun.
  pose proof (cvtIndexes_loop_keeps spTableName (schema.Table.Name t)
                (schema.Table.Indexes t) Hix d u []) as Hrunix.
  unfold cvtIndexes in Hrun.
  destruct (cvtIndexes_loop d _ _ _ _ _) as [[e i] v]. simpl in Hrunix.
  eapply names_kept_trans; [exact Hrunfk|].
  eapply names_kept_trans; [exact Hrunix|by eapply IH].
Qed.

Lemma seeded_kept tables u u' :
  seeded tables u → names_kept u u' → seeded tables u'.
Proof. intros Hs Hk t sp Hin Hsp. apply Hk. by eapply Hs. Qed.

(** *** A loop over a concatenation is the loop over its first part
    followed by the loop over the rest *)

Lemma cvtIndexes_loop_app spTableName srcTable l1 l2 :
  ∀ conv usedNames spIndexes,
    cvtIndexes_loop conv spTableName srcTable (l1 ++ l2) usedNames spIndexes
    = let '(conv', spIndexes', usedNames') :=
        cvtIndexes_loop conv spTableName srcTable l1 usedNames spIndexes in
      cvtIndexes_loop conv' spTableName srcTable l2 usedNames' spIndexes'.
Proof.
  induction l1 as [|idx l1 IH]; intros; simpl; [done|].
  destruct (cvtIndexes_keys _ _ _ _) as [c ks].
  destruct (ToSpannerIndexName _ _) as [name u]. apply IH.
Qed.

Lemma cvtForeignKeys_loop_app srcTable l1 l2 :
  ∀ conv usedNames spKeys,
    cvtForeignKeys_loop conv srcTable (l1 ++ l2) usedNames spKeys
    = '(conv', spKeys', usedNames') ←
        cvtForeignKeys_loop conv srcTable l1 usedNames spKeys;
      cvtForeignKeys_loop conv' srcTable l2 usedNames' spKeys'.
Proof.
  induction l1 as [|key l1 IH]; intros; simpl; [done|].
  case_bool_decide; [apply IH|].
  destruct (GetSpannerTable _); [|apply IH].
  destruct (cvtForeignKeys_cols _ _ _ _ _ _ _) as [[[c ?] ?]|]; [|done].
  simpl. destruct (ToSpannerForeignKey _ _) as [name u]. apply IH.
Qed.

Lemma cvtTables_app l1 l2 :
  ∀ conv usedNames,
    cvtTables conv (l1 ++ l2) usedNames
    = '(conv', usedNames') ← cvtTables conv l1 usedNames;
      cvtTables conv' l2 usedNames'.
Proof.
  induction l1 as [|t l1 IH]; intros; simpl; [done|].
  destruct (GetSpannerTable _) as [spTableName|]; [|apply IH].
  destruct (cvtColumns _ _ _ _ _) as [[[c ?] ?]|]; [|done]. simpl.
  destruct (cvtPrimaryKeys c _ _) as [c' pks].
  destruct (cvtForeignKeys c' _ _ _) as [[[d f] u]|]; [|done]. simpl.
  destruct (cvtIndexes d _ _ _ _) as [[e i] v]. apply IH.
Qed.

Lemma cvtIndexes_loop_acc spTableName srcTable srcIndexes :
  ∀ conv usedNames spIndexes,
    ∃ more,
      (cvtIndexes_loop conv spTableName srcTable srcIndexes usedNames spIndexes).1.2
        = spIndexes ++ more
      ∧ length more = length srcIndexes.
Proof.
  induction srcIndexes as [|idx srcIndexes IH]; intros; simpl.
  { exists []. by rewrite app_nil_r. }
  destruct (cvtIndexes_keys _ _ _ _) as [c ks].
  destruct (ToSpannerIndexName _ _) as [name u].
  edestruct IH as (more & -> & Hlen).
  eexists (_ :: more). rewrite <- (assoc_L (++)). simpl. split; [done|].
  by rewrite Hlen.
Qed.
End Runs.

(** ** The run and the allocator *)

Section Independent.
Context `{!NameResolver, !Support}.
Variables A A' : NameAllocator.
Variable tables : list schema.Table.t.
Hypothesis Hfk : keeps_names (@ToSpannerForeignKey A).
Hypothesis Hix : keeps_names (@ToSpannerIndexName A).
Hypothesis Hsame :
  ∀ name usedNames,
    seeded tables usedNames →
    @ToSpannerForeignKey A name usedNames = @ToSpannerForeignKey A' name usedNames
    ∧ @ToSpannerIndexName A name usedNames = @ToSpannerIndexName A' name usedNames.

Lemma cvtForeignKeys_loop_independent srcTable srcKeys :
  ∀ conv usedNames spKeys,
    seeded tables usedNames →
    @cvtForeignKeys_loop _ A' conv srcTable srcKeys usedNames spKeys
    = @cvtForeignKeys_loop _ A conv srcTable srcKeys usedNames spKeys.
Proof.
  induction srcKeys as [|key srcKeys IH]; intros * Hseeded; simpl; [done|].
  case_bool_decide; [by apply IH|].
  destruct (GetSpannerTable _); [|by apply IH].
  destruct (cvtForeignKeys_cols _ _ _ _ _ _ _) as [[[c ?] ?]|]; [|done].
  simpl. rewrite <- (proj1 (Hsame (schema.ForeignKey.Name key) usedNames Hseeded)).
  pose proof (Hfk (schema.ForeignKey.Name key) usedNames) as Hkept.
  destruct (@ToSpannerForeignKey A _ _) as [name u]. apply IH.
  by eapply seeded_kept.
Qed.

Lemma cvtIndexes_loop_independent spTableName srcTable srcIndexes :
  ∀ conv usedNames spIndexes,
    seeded tables usedNames →
    @cvtIndexes_loop _ A' conv spTableName srcTable srcIndexes usedNames spIndexes
    = @cvtIndexes_loop _ A conv spTableName srcTable srcIndexes usedNames spIndexes.
Proof.
  induction srcIndexes as [|idx srcIndexes IH]; intros * Hseeded; simpl; [done|].
  destruct (cvtIndexes_keys _ _ _ _) as [c ks].
  rewrite <- (proj2 (Hsame (index_name srcTable idx) usedNames Hseeded)).
  pose proof (Hix (index_name srcTable idx) usedNames) as Hkept.
  destruct (@ToSpannerIndexName A _ _) as [name u]. apply IH.
  by eapply seeded_kept.
Qed.

Lemma cvtTables_independent srcTables :
  ∀ conv usedNames,
    seeded tables usedNames →
    @cvtTables _ A' _ conv srcTables usedNames
    = @cvtTables _ A _ conv srcTables usedNames.
Proof.
  induction srcTables as [|t srcTables IH]; intros * Hseeded; simpl; [done|].
  destruct (GetSpannerTable _) as [spTableName|]; [|by apply IH].
  destruct (cvtColumns _ _ _ _ _) as [[[c ?] ?]|]; [|done]. simpl.
  destruct (cvtPrimaryKeys c _ _) as [c' pks].
  unfold cvtForeignKeys. rewrite cvtForeignKeys_loop_independent by done.
  destruct (@cvtForeignKeys_loop _ A c' _ _ _ _) as [[[d f] u]|] eqn:Hrunfk;
    [|done].
  simpl. unfold cvtIndexes.
  assert (seeded tables u) as Hu.
  { eapply seeded_kept; [exact Hseeded|].
    by eapply (@cvtForeignKeys_loop_keeps _ A). }
  rewrite cvtIndexes_loop_independent by done.
  pose proof (@cvtIndexes_loop_keeps _ A spTableName (schema.Table.Name t)
                (schema.Table.Indexes t) Hix d u []) as Hrunix.
  destruct (@cvtIndexes_loop _ A d _ _ _ _ _) as [[e i] v]. simpl in Hrunix.
  apply IH. by eapply seeded_kept.
Qed.
End Independent.

(** ** The registry does not depend on the order of the tables *)

Section Order.
Context `{!NameResolver, !NameAllocator, !Support}.
Import registry.





End Order.

(** ** The constraint converters and the orchestrator *)

(** C1: the code emits a foreign key one of whose column pairs does not
    resolve.  For the foreign key [fk_customer] of [orders], whose second
    pair [(region, region)] is unknown to the resolver, [cvtForeignKeys]
    reports one diagnostic and still emits the key, with the remaining
    pair [(customer_id, id)] only. *)
Theorem cvtForeignKeys_unresolved_column :
  @cvtForeignKeys example.resolver allocator.spec_allocator
    (example.fresh [example.orders; example.customers] "spanner")
    "orders" [example.fk_customer] ∅
  = Some
      (Unexpected (example.fresh [example.orders; example.customers] "spanner")
         "Can't map foreign key for table: orders, referenced table: customers, column: region",
       [ddl.Foreignkey.mk "fk_customer" ["customer_id"] "customers" ["id"]],
       {["fk_customer" := true]}).
Proof. vm_compute. reflexivity. Qed.

Section Seeding.
Context `{!NameResolver, !Support} {alloc : NameAllocator}.

(** C8: in a run of [schemaToDDL], every foreign-key or index name is
    allocated in a [usedNames] that holds the resolved name of every
    source table that resolves.
    - The run is the seeding loop followed by the conversion loop started
      from the map the seeding loop leaves, and that map is seeded.
    - The [usedNames] in force when the name of a foreign key (an index)
      of a table is allocated, which is the one left by the conversion of
      the tables before it ([before]) and of the foreign keys (and
      indexes) before it ([fbefore], [ibefore]; see [cvtTables_app],
      [cvtForeignKeys_loop_app] and [cvtIndexes_loop_app]), is seeded.
    - The run never hands the allocator a map that is not seeded: with
      any other allocator that agrees with this one on the seeded maps,
      the run is the same.
    The allocator is assumed to remove no name from the map it is
    handed. *)
Theorem usedNames_seeded_at_allocation (conv : Conv.t) :
  keeps_names ToSpannerForeignKey →
  keeps_names ToSpannerIndexName →
  let seeds := seedUsedNames conv (Conv.SrcSchema conv) ∅ in
  (seeded (Conv.SrcSchema conv) seeds.2
   ∧ ∃ conv' usedNames',
       cvtTables seeds.1 (Conv.SrcSchema conv) seeds.2 = Some (conv', usedNames')
       ∧ schemaToDDL conv
         = Some (set_SpSchema conv' (ResolveRefs (Conv.SpSchema conv')), None))
  ∧ (∀ before srcTable after conv1 usedNames1,
       Conv.SrcSchema conv = before ++ srcTable :: after →
       cvtTables seeds.1 before seeds.2 = Some (conv1, usedNames1) →
       let name := schema.Table.Name srcTable in
       (∀ conv2 fbefore key fafter conv3 spKeys usedNames3,
          schema.Table.ForeignKeys srcTable = fbefore ++ key :: fafter →
          cvtForeignKeys conv2 name fbefore usedNames1
            = Some (conv3, spKeys, usedNames3) →
          seeded (Conv.SrcSchema conv) usedNames3)
       ∧ (∀ conv2 conv3 spKeys usedNames3 conv4 spTableName ibefore idx iafter,
            cvtForeignKeys conv2 name (schema.Table.ForeignKeys srcTable)
              usedNames1
              = Some (conv3, spKeys, usedNames3) →
            schema.Table.Indexes srcTable = ibefore ++ idx :: iafter →
            seeded (Conv.SrcSchema conv)
              (cvtIndexes conv4 spTableName name ibefore usedNames3).2))
  ∧ (∀ other : NameAllocator,
       (∀ name usedNames,
          seeded (Conv.SrcSchema conv) usedNames →
          @ToSpannerForeignKey alloc name usedNames
            = @ToSpannerForeignKey other name usedNames
          ∧ @ToSpannerIndexName alloc name usedNames
            = @ToSpannerIndexName other name usedNames) →
       @schemaToDDL _ other _ conv = @schemaToDDL _ alloc _ conv).
Proof.
  intros Hfk Hix seeds.
  assert (seeded (Conv.SrcSchema conv) seeds.2) as Hseeds
    by apply seedUsedNames_seeded.
  split_and!.
  - done.
  - destruct (cvtTables_returns (Conv.SrcSchema conv) seeds.1 seeds.2)
      as [[conv' usedNames'] Hrun].
    exists conv', usedNames'. split; [done|].
    unfold schemaToDDL. fold seeds.
    pose proof (seedUsedNames_frame conv (Conv.SrcSchema conv) ∅) as (Hsrc&_).
    fold seeds in Hsrc. destruct seeds as [c u]. simpl in *.
    rewrite <- Hsrc, Hrun. done.
  - intros before srcTable after conv1 usedNames1 Hsrc Hrun name.
    assert (seeded (Conv.SrcSchema conv) usedNames1) as Hseeded.
    { eapply seeded_kept; [exact Hseeds|]. by eapply cvtTables_keeps. }
    split.
    + intros * _ Hrunfk. eapply seeded_kept; [exact Hseeded|].
      by eapply cvtForeignKeys_loop_keeps.
    + intros * Hrunfk _. eapply seeded_kept; [exact Hseeded|].
      eapply names_kept_trans; [by eapply cvtForeignKeys_loop_keeps|].
      by apply cvtIndexes_loop_keeps.
  - intros other Hsame. unfold schemaToDDL. fold seeds.
    pose proof (seedUsedNames_frame conv (Conv.SrcSchema conv) ∅) as (Hsrc&_).
    fold seeds in Hsrc. destruct seeds as [c u]. simpl in *.
    rewrite <- Hsrc.
    by rewrite (cvtTables_independent alloc other (Conv.SrcSchema conv)
                  Hfk Hix Hsame).
Qed.
End Seeding.

Section Claims.
Context `{!NameResolver, !NameAllocator, !Support}.

(** C10: in the experimental dialect no column gets the issue
    [MultiDimensionalArray], and a run on a registry that does not hold
    it (such as a fresh one) returns a registry that does not hold it. *)
Theorem experimental_never_records_multidim (conv : Conv.t) :
  Conv.TargetDb conv = "experimental_postgres" →
  (∀ srcCol, MultiDimensionalArray ∉ (columnType conv srcCol).2)
  ∧ (never_recorded MultiDimensionalArray (Conv.Issues conv) →
     ∃ conv', schemaToDDL conv = Some (conv', None)
              ∧ never_recorded MultiDimensionalArray (Conv.Issues conv')).
Proof.
  intros Hdb. split.
  { intros srcCol. by apply columnType_experimental_issues. }
  intros Hreg. destruct (schemaToDDL_returns conv) as [conv' Hrun].
  exists conv'. split; [done|].
  unfold schemaToDDL in Hrun.
  pose proof (seedUsedNames_frame conv (Conv.SrcSchema conv) ∅)
    as (_ & _ & Hi & Hd).
  destruct (seedUsedNames conv _ _) as [c u]. simpl in *.
  destruct (cvtTables c _ u) as [[c' u']|] eqn:Htables; [|done].
  simpl in Hrun. simplify_eq. simpl.
  eapply cvtTables_never_recorded; [| |exact Htables].
  - by rewrite <- Hd.
  - by rewrite <- Hi.
Qed.
End Claims.

Section Indexes.
Context `{!NameResolver}.
Import allocator.
#[local] Existing Instance spec_allocator.

(** C6: for a source index with an empty name, at position
    [length before] of the indexes of a table, the index emitted at
    that position is named by allocating the candidate
    ["Index_" + srcTable] in the [usedNames] left by the indexes before
    it: the candidate itself when it is free, and otherwise the first
    alternative [candidate_n], [n >= 2], that is not in [usedNames]. *)
Theorem cvtIndexes_unnamed (conv : Conv.t) (spTableName srcTable : string)
    (before after : list schema.Index.t) (idx : schema.Index.t)
    (usedNames : gmap string bool) :
  schema.Index.Name idx = "" →
  let candidate := "Index_" +:+ srcTable in
  let usedNames1 := (cvtIndexes conv spTableName srcTable before usedNames).2 in
  ∃ name,
    (ddl.CreateIndex.Name <$>
       (cvtIndexes conv spTableName srcTable (before ++ idx :: after) usedNames).1.2)
      !! length before = Some name
    ∧ name = (allocate candidate usedNames1).1
    ∧ (usedNames1 !! candidate = None → name = candidate)
    ∧ (usedNames1 !! candidate ≠ None →
       ∃ n, 2 ≤ n ∧ name = alternative candidate n
            ∧ usedNames1 !! name = None
            ∧ ∀ k, 2 ≤ k < n → usedNames1 !! alternative candidate k ≠ None).
Proof.
  intros Hname candidate usedNames1.
  exists (allocate candidate usedNames1).1. split_and!.
  - unfold cvtIndexes. rewrite cvtIndexes_loop_app.
    subst usedNames1. unfold cvtIndexes.
    destruct (cvtIndexes_loop_acc spTableName srcTable before conv usedNames [])
      as (more & Hmore & Hlen).
    destruct (cvtIndexes_loop conv _ _ before _ _) as [[c1 ix1] u1].
    simpl in *. subst ix1.
    destruct (cvtIndexes_keys _ _ _ _) as [c2 ks].
    unfold index_name. rewrite bool_decide_eq_true_2 by done.
    fold candidate. destruct (allocate candidate u1) as [name u2]. simpl.
    edestruct (cvtIndexes_loop_acc spTableName srcTable after c2 u2)
      as (more' & -> & _).
    rewrite <- (assoc_L (++)). simpl.
    rewrite list_lookup_fmap, lookup_app_r by lia.
    by replace (length before - length more) with 0 by lia.
  - done.
  - intros Hfree. by rewrite allocate_free.
  - intros Hused.
    destruct (allocate_collision candidate usedNames1 Hused)
      as (n & Hn & -> & Hnone & Hbelow).
    exists n. done.
Qed.
End Indexes.

(** C7: [schemaToDDL] returns for every conversion state, whatever the
    resolver, the allocator and the reference resolver, and the error it
    returns is [nil]; so it does on a schema one table of which and one
    foreign-key column of which do not resolve. *)
Theorem schemaToDDL_never_fails :
  (∀ (resolver : NameResolver) (alloc : NameAllocator) (support : Support)
     (conv : Conv.t),
     ∃ conv', schemaToDDL conv = Some (conv', None))
  ∧ (∃ conv',
       @schemaToDDL example.resolver allocator.spec_allocator example.support
         (example.fresh [example.orders; example.customers; example.stray] "spanner")
         = Some (conv', None)
       ∧ length (Conv.Reported conv') = 3
       ∧ Conv.SpSchema conv' !! "stray" = None).
Proof.
  split.
  - intros. apply schemaToDDL_returns.
  - eexists. split; [vm_compute; reflexivity|]. split; vm_compute; reflexivity.
Qed.

(** ** The theorems at the example schema *)

Lemma usedNames_seeded_witness :
  @seeded example.resolver
    [example.orders; example.customers; example.stray]
    (@seedUsedNames example.resolver
       (example.fresh [example.orders; example.customers; example.stray] "spanner")
       [example.orders; example.customers; example.stray] ∅).2.
Proof.
  apply (proj1 (proj1 (@usedNames_seeded_at_allocation
                  example.resolver example.support allocator.spec_allocator
                  (example.fresh
                     [example.orders; example.customers; example.stray] "spanner")
                  allocate_keeps_names allocate_keeps_names))).
Defined.



Lemma experimental_never_records_multidim_witness :
  ∃ conv',
    @schemaToDDL example.resolver allocator.spec_allocator example.support
      (example.fresh [example.orders; example.customers] "experimental_postgres")
      = Some (conv', None)
    ∧ never_recorded MultiDimensionalArray (Conv.Issues conv').
Proof.
  apply (proj2 (@experimental_never_records_multidim
                  example.resolver allocator.spec_allocator example.support
                  (example.fresh [example.orders; example.customers]
                     "experimental_postgres") eq_refl)).
  intros table m col l Htable. simpl in Htable.
  rewrite lookup_empty in Htable. discriminate.
Defined.

Lemma cvtIndexes_unnamed_witness :
  ∃ name,
    (ddl.CreateIndex.Name <$>
       (@cvtIndexes example.resolver allocator.spec_allocator
          (example.fresh [example.orders] "spanner") "orders" "orders"
          ([] ++ example.unnamed_index :: []) {["Index_orders" := true]}).1.2)
      !! 0 = Some name
    ∧ name = "Index_orders_2".
Proof.
  destruct (@cvtIndexes_unnamed example.resolver
              (example.fresh [example.orders] "spanner") "orders" "orders"
              [] [] example.unnamed_index {["Index_orders" := true]} eq_refl)
    as (name & Hlookup & Hname & _).
  exists name. split; [exact Hlookup|].
  rewrite Hname. vm_compute. reflexivity.
Defined.

(** * Further properties *)

Import summary.

(** ** Further properties of the type mapper *)

(** X1: the type mapper reads the modifiers only for the identifiers
    [bpchar], [character], [varchar] and [character varying]: for any
    other identifier the result is the one for no modifiers (so the
    precision and scale of a [numeric] are ignored); and it never reads
    more than the first modifier. *)
Theorem toSpannerType_mods (conv : Conv.t) (id : string) (mods : list Z) :
  (id ∉ sized → toSpannerType conv id mods = toSpannerType conv id [])
  ∧ (∀ m, toSpannerType conv id (m :: mods) = toSpannerType conv id [m]).
Proof.
  split.
  - intros Hid. unfold toSpannerType.
    repeat switch_id; try done; destruct mods; try done;
      exfalso;
      match goal with
      | H : case_of _ _ = true |- _ =>
          apply case_of_true in H; simpl in H; destruct_or?; subst;
          try contradiction; apply Hid; unfold sized; elem_of_closed
      end.
  - intros m. unfold toSpannerType. repeat switch_id; done.
Qed.

Lemma toSpannerType_mods_witness :
  toSpannerType (example.fresh [] "spanner") "numeric" [10%Z; 2%Z]
  = toSpannerType (example.fresh [] "spanner") "numeric" [].
Proof.
  apply (proj1 (toSpannerType_mods (example.fresh [] "spanner") "numeric"
                  [10%Z; 2%Z])).
  intros Hin. apply list_elem_of_In in Hin. simpl in Hin.
  intuition discriminate.
Defined.

Lemma toSpannerType_flags conv id mods :
  (ForeignKey ∉ (toSpannerType conv id mods).2)
  ∧ (DefaultValue ∉ (toSpannerType conv id mods).2).
Proof.
  unfold toSpannerType.
  repeat switch_id; try destruct mods; simpl;
    rewrite !list_elem_of_In; simpl; intuition discriminate.
Qed.

(** X2: in either dialect, the issue [ForeignKey] is among the issues of
    a column exactly when its flag [Ignored.ForeignKey] is set, and the
    issue [DefaultValue] exactly when its flag [Ignored.Default] is set. *)
Theorem columnType_ignored (conv : Conv.t) (srcCol : schema.Column.t) :
  (ForeignKey ∈ (columnType conv srcCol).2
   ↔ schema.Ignored.ForeignKey (schema.Column.Ignored srcCol) = true)
  ∧ (DefaultValue ∈ (columnType conv srcCol).2
     ↔ schema.Ignored.Default (schema.Column.Ignored srcCol) = true).
Proof.
  unfold columnType.
  pose proof (toSpannerType_flags conv
    (schema.Type_.Name (schema.Column.Type_ srcCol))
    (schema.Type_.Mods (schema.Column.Type_ srcCol))) as [Hfk Hdv].
  destruct (toSpannerType _ _ _) as [ty issues]. simpl in *.
  destruct (schema.Ignored.ForeignKey _), (schema.Ignored.Default _);
    repeat case_bool_decide; simpl;
    rewrite ?elem_of_app, ?list_elem_of_singleton;
    intuition (discriminate || eauto).
Qed.

(** X3: [overrideExperimentalType] is idempotent: overriding an
    overridden type changes nothing. *)
Theorem overrideExperimentalType_idempotent (srcCol : schema.Column.t)
    (ty : ddl.Type_.t) :
  overrideExperimentalType srcCol (overrideExperimentalType srcCol ty)
  = overrideExperimentalType srcCol ty.
Proof.
  assert (case_of ddl.String [ddl.Numeric; ddl.Date] = false) as Hstring
    by reflexivity.
  unfold overrideExperimentalType.
  destruct (case_of (ddl.Type_.Name ty) _) eqn:Hname.
  { change (ddl.Type_.Name (Type_Name_Len ddl.String ddl.MaxLength))
      with ddl.String.
    rewrite Hstring. by case_bool_decide. }
  case_bool_decide.
  - change (ddl.Type_.Name (Type_Name_Len ddl.String ddl.MaxLength))
      with ddl.String.
    by rewrite Hstring.
  - by rewrite Hname.
Qed.

Section Quote.
Context `{!Support}.

Lemma quoteIfNeeded_loop_plain s rs :
  Forall (λ r, plain_rune r = true) rs → quoteIfNeeded_loop s rs = s.
Proof.
  induction 1 as [|r rs Hr _ IH]; simpl; [done|].
  unfold plain_rune in Hr. by rewrite Hr.
Qed.

Lemma quoteIfNeeded_loop_other s rs :
  Exists (λ r, plain_rune r = false) rs → quoteIfNeeded_loop s rs = Quote s.
Proof.
  induction 1 as [r rs Hr|r rs _ IH]; simpl.
  - unfold plain_rune in Hr. by rewrite Hr.
  - rewrite IH. by destruct (_ || _).
Qed.

(** X4: [quoteIfNeeded] returns its argument unchanged when every rune
    of it is a letter, a digit or a punctuation mark, and [strconv.Quote]
    of it as soon as one rune is none of these. *)
Theorem quoteIfNeeded_spec (s : string) :
  (Forall (λ r, plain_rune r = true) (runes s) → quoteIfNeeded s = s)
  ∧ (Exists (λ r, plain_rune r = false) (runes s) → quoteIfNeeded s = Quote s).
Proof.
  split; intros Hs; unfold quoteIfNeeded.
  - by apply quoteIfNeeded_loop_plain.
  - by apply quoteIfNeeded_loop_other.
Qed.
End Quote.

Lemma quoteIfNeeded_spec_witness :
  @quoteIfNeeded example.support "order_items" = "order_items"
  ∧ @quoteIfNeeded example.support "order items"
    = @Quote example.support "order items".
Proof.
  split.
  - apply (proj1 (@quoteIfNeeded_spec example.support "order_items")).
    vm_compute. repeat constructor.
  - apply (proj2 (@quoteIfNeeded_spec example.support "order items")).
    vm_compute. do 5 apply Exists_cons_tl. by apply Exists_cons_hd.
Defined.

(** ** Further properties of the constraint converters *)

Lemma reports_nil conv : reports conv [] = conv.
Proof. destruct conv. unfold reports. simpl. by rewrite app_nil_r. Qed.

Lemma reports_reports conv us1 us2 :
  reports (reports conv us1) us2 = reports conv (us1 ++ us2).
Proof. unfold reports. simpl. by rewrite (assoc_L (++)). Qed.

Lemma Unexpected_reports conv us u :
  Unexpected (reports conv us) u = reports conv (us ++ [u]).
Proof. unfold Unexpected, reports. simpl. by rewrite (assoc_L (++)). Qed.

Section Converters.
Context `{!NameResolver, !NameAllocator}.

Lemma resolve_key_Ok srcTable k spCol :
  GetSpannerCol srcTable (schema.Key.Column k) true = Ok spCol →
  resolve_key srcTable k = Some (ddl.IndexKey.mk spCol (schema.Key.Desc k)).
Proof. intros Hk. unfold resolve_key. by rewrite Hk. Qed.

Lemma resolve_key_Err srcTable k e :
  GetSpannerCol srcTable (schema.Key.Column k) true = Err e →
  resolve_key srcTable k = None.
Proof. intros Hk. unfold resolve_key. by rewrite Hk. Qed.

Lemma unresolved_keys_cons_Ok srcTable k ks spCol :
  GetSpannerCol srcTable (schema.Key.Column k) true = Ok spCol →
  unresolved_keys srcTable (k :: ks) = unresolved_keys srcTable ks.
Proof.
  intros Hk. unfold unresolved_keys.
  rewrite filter_cons_False; [done|]. by rewrite (resolve_key_Ok _ _ _ Hk).
Qed.

Lemma unresolved_keys_cons_Err srcTable k ks e :
  GetSpannerCol srcTable (schema.Key.Column k) true = Err e →
  unresolved_keys srcTable (k :: ks) = S (unresolved_keys srcTable ks).
Proof.
  intros Hk. unfold unresolved_keys.
  rewrite filter_cons_True; [done|]. by rewrite (resolve_key_Err _ _ _ Hk).
Qed.

Lemma cvtPrimaryKeys_loop_spec srcTable srcKeys :
  ∀ conv us spKeys,
    cvtPrimaryKeys_loop (reports conv us) srcTable srcKeys spKeys
    = (reports conv
         (us ++ replicate (unresolved_keys srcTable srcKeys)
                  ("Can't map key for table " +:+ srcTable)),
       spKeys ++ omap (resolve_key srcTable) srcKeys).
Proof.
  induction srcKeys as [|k srcKeys IH]; intros; simpl.
  { by rewrite !app_nil_r. }
  destruct (GetSpannerCol srcTable (schema.Key.Column k) true) as [spCol|e] eqn:Hk.
  - rewrite IH, (unresolved_keys_cons_Ok _ _ _ _ Hk), (resolve_key_Ok _ _ _ Hk).
    by rewrite <- (assoc_L (++)).
  - rewrite Unexpected_reports, IH, (unresolved_keys_cons_Err _ _ _ _ Hk),
      (resolve_key_Err _ _ _ Hk).
    simpl. by rewrite <- (assoc_L (++)).
Qed.

(** X5: [cvtPrimaryKeys] returns, in order and with their direction,
    the keys whose column resolves, and reports the diagnostic
    ["Can't map key for table " + srcTable] once per key whose column
    does not; nothing else of the conversion state changes. *)
Theorem cvtPrimaryKeys_spec (conv : Conv.t) (srcTable : string)
    (srcKeys : list schema.Key.t) :
  cvtPrimaryKeys conv srcTable srcKeys
  = (reports conv
       (replicate (unresolved_keys srcTable srcKeys)
          ("Can't map key for table " +:+ srcTable)),
     omap (resolve_key srcTable) srcKeys).
Proof.
  unfold cvtPrimaryKeys. rewrite <- (reports_nil conv) at 1.
  by rewrite cvtPrimaryKeys_loop_spec.
Qed.

Lemma cvtIndexes_keys_spec srcTable keys :
  ∀ conv spKeys,
    (cvtIndexes_keys conv srcTable keys spKeys).2
    = spKeys ++ omap (resolve_key srcTable) keys.
Proof.
  induction keys as [|k keys IH]; intros; simpl.
  { by rewrite app_nil_r. }
  destruct (GetSpannerCol srcTable (schema.Key.Column k) true) as [spCol|e] eqn:Hk.
  - rewrite IH, (resolve_key_Ok _ _ _ Hk). by rewrite <- (assoc_L (++)).
  - by rewrite IH, (resolve_key_Err _ _ _ Hk).
Qed.

Lemma cvtIndexes_loop_shape spTableName srcTable srcIndexes :
  ∀ conv usedNames spIndexes,
    ∃ more,
      (cvtIndexes_loop conv spTableName srcTable srcIndexes usedNames spIndexes).1.2
        = spIndexes ++ more
      ∧ index_shape <$> more
        = (λ idx, (spTableName, schema.Index.Unique idx,
                   omap (resolve_key srcTable) (schema.Index.Keys idx)))
            <$> srcIndexes
      ∧ (ddl.CreateIndex.Name <$> more,
         (cvtIndexes_loop conv spTableName srcTable srcIndexes usedNames spIndexes).2)
        = allocate_all ToSpannerIndexName (index_name srcTable <$> srcIndexes)
            usedNames.
Proof.
  induction srcIndexes as [|idx srcIndexes IH]; intros; simpl.
  { exists []. by rewrite app_nil_r. }
  pose proof (cvtIndexes_keys_spec srcTable (schema.Index.Keys idx) conv []) as Hks.
  destruct (cvtIndexes_keys _ _ _ _) as [c ks]. simpl in Hks. subst ks.
  destruct (ToSpannerIndexName _ _) as [name u] eqn:Halloc.
  edestruct (IH c u) as (more & -> & Hshape & Hnames).
  eexists (_ :: more). rewrite <- (assoc_L (++)).
  split; [done|]. rewrite !fmap_cons. split.
  - by rewrite Hshape.
  - match goal with
    | |- _ = (let '(_, _) := ?t in _) =>
        change t with
          (allocate_all ToSpannerIndexName (index_name srcTable <$> srcIndexes) u)
    end.
    by rewrite <- Hnames.
Qed.

(** X6: [cvtIndexes] emits exactly one index per source index, in
    order, whether or not its key columns resolve: on the table
    [spTableName], with the uniqueness flag of the source index and, as
    keys, the key columns that resolve (an index none of whose columns
    resolves is emitted without keys). *)
Theorem cvtIndexes_shape (conv : Conv.t) (spTableName srcTable : string)
    (srcIndexes : list schema.Index.t) (usedNames : gmap string bool) :
  index_shape <$> (cvtIndexes conv spTableName srcTable srcIndexes usedNames).1.2
  = (λ idx, (spTableName, schema.Index.Unique idx,
             omap (resolve_key srcTable) (schema.Index.Keys idx)))
      <$> srcIndexes.
Proof.
  unfold cvtIndexes.
  destruct (cvtIndexes_loop_shape spTableName srcTable srcIndexes conv usedNames [])
    as (more & -> & Hshape & _).
  done.
Qed.

(** X7: [cvtIndexes] allocates one name per source index, in order:
    the names of the emitted indexes and the [usedNames] it leaves are
    those obtained by handing the declared names (["Index_" + srcTable]
    for an empty one) to [ToSpannerIndexName] one after the other. *)
Theorem cvtIndexes_names (conv : Conv.t) (spTableName srcTable : string)
    (srcIndexes : list schema.Index.t) (usedNames : gmap string bool) :
  (ddl.CreateIndex.Name
     <$> (cvtIndexes conv spTableName srcTable srcIndexes usedNames).1.2,
   (cvtIndexes conv spTableName srcTable srcIndexes usedNames).2)
  = allocate_all ToSpannerIndexName (index_name srcTable <$> srcIndexes) usedNames.
Proof.
  unfold cvtIndexes.
  destruct (cvtIndexes_loop_shape spTableName srcTable srcIndexes conv usedNames [])
    as (more & Hmore & _ & Hnames).
  by rewrite Hmore.
Qed.

Lemma omap_cons {A B} (f : A → option B) x l :
  omap f (x :: l)
  = match f x with Some y => y :: omap f l | None => omap f l end.
Proof. reflexivity. Qed.

Lemma cvtForeignKeys_loop_cons conv srcTable key srcKeys usedNames spKeys :
  cvtForeignKeys_loop conv srcTable (key :: srcKeys) usedNames spKeys
  = cvtForeignKeys_loop conv srcTable [key] usedNames spKeys
    ≫= λ '(conv', spKeys', usedNames'),
         cvtForeignKeys_loop conv' srcTable srcKeys usedNames' spKeys'.
Proof. apply (cvtForeignKeys_loop_app srcTable [key] srcKeys). Qed.

Lemma kept_table_mismatch key :
  length (schema.ForeignKey.Columns key)
    ≠ length (schema.ForeignKey.ReferColumns key) →
  kept_table key = None.
Proof. intros Hlen. unfold kept_table. by rewrite bool_decide_eq_false_2. Qed.

Lemma kept_table_resolved key :
  length (schema.ForeignKey.Columns key)
    = length (schema.ForeignKey.ReferColumns key) →
  kept_table key = resolved (GetSpannerTable (schema.ForeignKey.ReferTable key)).
Proof. intros Hlen. unfold kept_table. by rewrite bool_decide_eq_true_2. Qed.

Lemma cvtForeignKeys_loop_kept srcTable srcKeys :
  ∀ conv usedNames spKeys,
    ∃ conv' more usedNames',
      cvtForeignKeys_loop conv srcTable srcKeys usedNames spKeys
        = Some (conv', spKeys ++ more, usedNames')
      ∧ ddl.Foreignkey.ReferTable <$> more = omap kept_table srcKeys
      ∧ (ddl.Foreignkey.Name <$> more, usedNames')
        = allocate_all ToSpannerForeignKey (omap kept_name srcKeys) usedNames
      ∧ Forall paired more.
Proof.
  induction srcKeys as [|key srcKeys IH]; intros.
  { exists conv, [], usedNames. by rewrite app_nil_r. }
  cbn [cvtForeignKeys_loop]. rewrite !omap_cons. unfold kept_name at 1.
  case_bool_decide as Hlen.
  { rewrite (kept_table_mismatch key) by done.
    destruct (IH (Unexpected conv
        ("ConvertForeignKeys: columns and referColumns don't have the same lengths: len(columns)="
         +:+ pretty (length (schema.ForeignKey.Columns key))
         +:+ ", len(referColumns)="
         +:+ pretty (length (schema.ForeignKey.ReferColumns key))
         +:+ " for source table: " +:+ srcTable
         +:+ ", referenced table: " +:+ schema.ForeignKey.ReferTable key))
        usedNames spKeys) as (c & more & u & Hrun & Htab & Hnames & Hp).
    exists c, more, u. done. }
  rewrite (kept_table_resolved key) by lia.
  destruct (GetSpannerTable (schema.ForeignKey.ReferTable key)) as [spReferTable|e].
  - destruct (cvtForeignKeys_cols_returns srcTable key
                (schema.ForeignKey.Columns key) conv 0 [] [])
      as [[[c spCols] spReferCols] Hcols]; [lia|].
    rewrite Hcols. cbn [mbind option_bind resolved allocate_all].
    apply cvtForeignKeys_cols_pairs in Hcols; [|done].
    destruct (ToSpannerForeignKey _ _) as [name u].
    destruct (IH c u (spKeys ++ [ddl.Foreignkey.mk name spCols spReferTable spReferCols]))
      as (c' & more & u' & Hrun & Htab & Hnames & Hp).
    eexists c', (_ :: more), u'. rewrite Hrun, <- (assoc_L (++)).
    split; [done|]. rewrite !fmap_cons, Htab, <- Hnames.
    split; [done|]. split; [done|]. by constructor.
  - cbn [resolved mbind option_bind].
    destruct (IH (Unexpected conv
        ("Can't map foreign key for source table: " +:+ srcTable
         +:+ ", referenced table: " +:+ schema.ForeignKey.ReferTable key))
        usedNames spKeys) as (c & more & u & Hrun & Htab & Hnames & Hp).
    exists c, more, u. done.
Qed.

(** X8: [cvtForeignKeys] never panics, and the keys it emits are, in
    order, the source keys whose two column lists have the same length
    and whose referenced table resolves: each carries the resolved name
    of its referenced table, and names are allocated, in order, for
    these keys only (a key dropped whole takes no name). *)
Theorem cvtForeignKeys_kept (conv : Conv.t) (srcTable : string)
    (srcKeys : list schema.ForeignKey.t) (usedNames : gmap string bool) :
  ∃ conv' spKeys usedNames',
    cvtForeignKeys conv srcTable srcKeys usedNames
      = Some (conv', spKeys, usedNames')
    ∧ ddl.Foreignkey.ReferTable <$> spKeys = omap kept_table srcKeys
    ∧ (ddl.Foreignkey.Name <$> spKeys, usedNames')
      = allocate_all ToSpannerForeignKey (omap kept_name srcKeys) usedNames.
Proof.
  destruct (cvtForeignKeys_loop_kept srcTable srcKeys conv usedNames [])
    as (c & more & u & Hrun & Htab & Hnames & _).
  exists c, more, u. done.
Qed.

(** X9: in every foreign key [cvtForeignKeys] emits, the list of
    columns and the list of referenced columns have the same length. *)
Theorem cvtForeignKeys_paired (conv : Conv.t) (srcTable : string)
    (srcKeys : list schema.ForeignKey.t) (usedNames : gmap string bool) :
  ∃ conv' spKeys usedNames',
    cvtForeignKeys conv srcTable srcKeys usedNames
      = Some (conv', spKeys, usedNames')
    ∧ Forall paired spKeys.
Proof.
  destruct (cvtForeignKeys_loop_kept srcTable srcKeys conv usedNames [])
    as (c & more & u & Hrun & _ & _ & Hp).
  exists c, more, u. done.
Qed.
End Converters.

Section Whole.
Context `{!NameResolver, !NameAllocator}.

Lemma drop_cons_inv {A} (l : list A) i x r :
  drop i l = x :: r → l !! i = Some x ∧ drop (S i) l = r.
Proof.
  intros Hdrop.
  assert (l !! i = Some x) as Hi.
  { rewrite <- (Nat.add_0_r i), <- lookup_drop, Hdrop. done. }
  split; [done|]. rewrite (drop_S _ _ _ Hi) in Hdrop. by simplify_eq.
Qed.

Lemma cvtForeignKeys_cols_whole conv srcTable key cols :
  ∀ i spCols spReferCols a b,
    Forall2 (λ col spCol, GetSpannerCol srcTable col false = Ok spCol) cols a →
    Forall2 (λ col spCol,
               GetSpannerCol (schema.ForeignKey.ReferTable key) col false = Ok spCol)
            (drop i (schema.ForeignKey.ReferColumns key)) b →
    length cols = length (drop i (schema.ForeignKey.ReferColumns key)) →
    cvtForeignKeys_cols conv srcTable key i cols spCols spReferCols
    = Some (conv, spCols ++ a, spReferCols ++ b).
Proof.
  induction cols as [|col cols IH]; intros * Ha Hb Hlen.
  { apply Forall2_nil_inv_l in Ha as ->.
    destruct (drop i _); [|done]. apply Forall2_nil_inv_l in Hb as ->.
    simpl. by rewrite !app_nil_r. }
  apply Forall2_cons_inv_l in Ha as (spCol & a' & Hcol & Ha & ->).
  destruct (drop i (schema.ForeignKey.ReferColumns key)) as [|rc rest] eqn:Hdrop;
    [done|].
  apply Forall2_cons_inv_l in Hb as (spReferCol & b' & Hrc & Hb & ->).
  apply drop_cons_inv in Hdrop as [Hi Hdrop].
  cbn [cvtForeignKeys_cols]. rewrite Hi. cbn [mbind option_bind].
  rewrite Hcol, Hrc.
  rewrite (IH (S i) _ _ a' b'); [|done|by rewrite Hdrop|rewrite Hdrop; simpl in *; lia].
  by rewrite <- !(assoc_L (++)).
Qed.

(** X10: a foreign key whose two column lists have the same length,
    whose referenced table resolves and all of whose columns and
    referenced columns resolve is emitted with all its column pairs, in
    order, and nothing is reported. *)
Theorem cvtForeignKeys_whole (conv : Conv.t) (srcTable : string)
    (key : schema.ForeignKey.t) (usedNames : gmap string bool)
    (spReferTable : string) (spCols spReferCols : list string) :
  length (schema.ForeignKey.Columns key)
    = length (schema.ForeignKey.ReferColumns key) →
  GetSpannerTable (schema.ForeignKey.ReferTable key) = Ok spReferTable →
  Forall2 (λ col spCol, GetSpannerCol srcTable col false = Ok spCol)
          (schema.ForeignKey.Columns key) spCols →
  Forall2 (λ col spCol,
             GetSpannerCol (schema.ForeignKey.ReferTable key) col false = Ok spCol)
          (schema.ForeignKey.ReferColumns key) spReferCols →
  cvtForeignKeys conv srcTable [key] usedNames
  = Some (conv,
          [ddl.Foreignkey.mk
             (ToSpannerForeignKey (schema.ForeignKey.Name key) usedNames).1
             spCols spReferTable spReferCols],
          (ToSpannerForeignKey (schema.ForeignKey.Name key) usedNames).2).
Proof.
  intros Hlen Htable Hcols Hrefs.
  unfold cvtForeignKeys. cbn [cvtForeignKeys_loop].
  rewrite bool_decide_eq_false_2 by (intros ?; done).
  rewrite Htable.
  rewrite (cvtForeignKeys_cols_whole conv srcTable key _ 0 [] [] spCols spReferCols);
    [|done|done|done].
  cbn [mbind option_bind]. by destruct (ToSpannerForeignKey _ _).
Qed.
End Whole.

Lemma cvtForeignKeys_whole_witness :
  @cvtForeignKeys example.resolver allocator.spec_allocator
    (example.fresh [example.orders; example.customers] "spanner")
    "orders" [sample.fk_orders] ∅
  = Some (example.fresh [example.orders; example.customers] "spanner",
          [ddl.Foreignkey.mk "fk_orders" ["customer_id"] "customers" ["id"]],
          {["fk_orders" := true]}).
Proof.
  pose proof (@cvtForeignKeys_whole example.resolver allocator.spec_allocator
                (example.fresh [example.orders; example.customers] "spanner")
                "orders" sample.fk_orders ∅ "customers" ["customer_id"] ["id"]
                eq_refl eq_refl
                ltac:(repeat constructor) ltac:(repeat constructor)) as Hrun.
  vm_compute in Hrun |- *. exact Hrun.
Defined.

(** ** Further properties of runs *)

Section Grows.
Context `{!NameResolver, !NameAllocator, !Support}.

Lemma grows_refl c : grows c c.
Proof. by repeat split. Qed.

Lemma grows_trans c1 c2 c3 : grows c1 c2 → grows c2 c3 → grows c1 c3.
Proof.
  intros (Hs1 & Hd1 & Hr1) (Hs2 & Hd2 & Hr2).
  split_and!; [by rewrite Hs2|by rewrite Hd2|by etrans].
Qed.

Lemma grows_Unexpected c u : grows c (Unexpected c u).
Proof. split_and!; [done|done|]. by exists [u]. Qed.

Lemma grows_step c c' u : grows (Unexpected c u) c' → grows c c'.
Proof. apply grows_trans, grows_Unexpected. Qed.

Lemma cvtPrimaryKeys_loop_grows conv srcTable srcKeys spKeys :
  grows conv (cvtPrimaryKeys_loop conv srcTable srcKeys spKeys).1.
Proof.
  revert conv spKeys.
  induction srcKeys as [|k srcKeys IH]; intros; simpl; [apply grows_refl|].
  destruct (GetSpannerCol _ _ _); [apply IH|]. eapply grows_step, IH.
Qed.

Lemma cvtForeignKeys_cols_grows srcTable key cols :
  ∀ conv i spCols spReferCols conv' spCols' spReferCols',
    cvtForeignKeys_cols conv srcTable key i cols spCols spReferCols
      = Some (conv', spCols', spReferCols') →
    grows conv conv'.
Proof.
  induction cols as [|col cols IH]; intros * Hrun; simpl in Hrun.
  { simplify_eq. apply grows_refl. }
  destruct (schema.ForeignKey.ReferColumns key !! i) as [referCol|]; [|done].
  simpl in Hrun.
  destruct (GetSpannerCol srcTable col false);
    [destruct (GetSpannerCol _ referCol false)|].
  - by eapply IH.
  - eapply grows_step. by eapply IH.
  - eapply grows_step. by eapply IH.
Qed.

Lemma cvtForeignKeys_loop_grows srcTable srcKeys :
  ∀ conv usedNames spKeys conv' spKeys' usedNames',
    cvtForeignKeys_loop conv srcTable srcKeys usedNames spKeys
      = Some (conv', spKeys', usedNames') →
    grows conv conv'.
Proof.
  induction srcKeys as [|key srcKeys IH]; intros * Hrun; simpl in Hrun.
  { simplify_eq. apply grows_refl. }
  case_bool_decide.
  { eapply grows_step. by eapply IH. }
  destruct (GetSpannerTable _).
  - destruct (cvtForeignKeys_cols _ _ _ _ _ _ _) as [[[c0 ?] ?]|] eqn:Hcols; [|done].
    simpl in Hrun. destruct (ToSpannerForeignKey _ _).
    eapply grows_trans; [by eapply cvtForeignKeys_cols_grows|by eapply IH].
  - eapply grows_step. by eapply IH.
Qed.

Lemma cvtIndexes_keys_grows conv srcTable keys spKeys :
  grows conv (cvtIndexes_keys conv srcTable keys spKeys).1.
Proof.
  revert conv spKeys.
  induction keys as [|k keys IH]; intros; simpl; [apply grows_refl|].
  destruct (GetSpannerCol _ _ _); [apply IH|]. eapply grows_step, IH.
Qed.

Lemma cvtIndexes_loop_grows conv spTableName srcTable srcIndexes usedNames spIndexes :
  grows conv
    (cvtIndexes_loop conv spTableName srcTable srcIndexes usedNames spIndexes).1.1.
Proof.
  revert conv usedNames spIndexes.
  induction srcIndexes as [|idx srcIndexes IH]; intros; simpl; [apply grows_refl|].
  pose proof (cvtIndexes_keys_grows conv srcTable (schema.Index.Keys idx) []) as Hk.
  destruct (cvtIndexes_keys _ _ _ _) as [c ks]. destruct (ToSpannerIndexName _ _).
  eapply grows_trans; [exact Hk|apply IH].
Qed.

Lemma seedUsedNames_grows conv tables usedNames :
  grows conv (seedUsedNames conv tables usedNames).1.
Proof.
  revert conv usedNames.
  induction tables as [|t tables IH]; intros; simpl; [apply grows_refl|].
  destruct (GetSpannerTable _); [apply IH|]. eapply grows_step, IH.
Qed.

Lemma cvtColumns_grows srcTable colNames :
  ∀ conv spColNames spColDef conv' spColNames' spColDef',
    cvtColumns conv srcTable colNames spColNames spColDef
      = Some (conv', spColNames', spColDef') →
    grows conv conv' ∧ Conv.SpSchema conv' = Conv.SpSchema conv.
Proof.
  induction colNames as [|n colNames IH]; intros * Hrun; simpl in Hrun.
  { simplify_eq. split; [apply grows_refl|done]. }
  destruct (GetSpannerCol _ _ _).
  - destruct (columnType conv _) as [ty issues].
    case_bool_decide; simpl in Hrun; [|by eapply IH].
    unfold record_issues in Hrun.
    destruct (Conv.Issues conv !! _) as [m|]; [|done]. simpl in Hrun.
    apply IH in Hrun as [(?&?&?) ?]. done.
  - apply IH in Hrun as [Hg ?]. split; [by eapply grows_step|done].
Qed.

Lemma cvtTables_grows tables :
  ∀ conv usedNames conv' usedNames',
    cvtTables conv tables usedNames = Some (conv', usedNames') →
    grows conv conv'.
Proof.
  induction tables as [|t tables IH]; intros * Hrun; simpl in Hrun.
  { simplify_eq. apply grows_refl. }
  destruct (GetSpannerTable _) as [spTableName|].
  2:{ eapply grows_step. by eapply IH. }
  destruct (cvtColumns _ _ _ _ _) as [[[c ?] ?]|] eqn:Hcols; [|done].
  apply cvtColumns_grows in Hcols as [Hcols _]. simpl in Hrun.
  pose proof (cvtPrimaryKeys_loop_grows c (schema.Table.Name t)
                (schema.Table.PrimaryKeys t) []) as Hpk.
  unfold cvtPrimaryKeys in Hrun.
  destruct (cvtPrimaryKeys_loop c _ _ _) as [c' pks]. simpl in Hpk.
  destruct (cvtForeignKeys c' _ _ _) as [[[d f] u]|] eqn:Hfk; [|done].
  apply cvtForeignKeys_loop_grows in Hfk. simpl in Hrun.
  pose proof (cvtIndexes_loop_grows d spTableName (schema.Table.Name t)
                (schema.Table.Indexes t) u []) as Hix.
  unfold cvtIndexes in Hrun.
  destruct (cvtIndexes_loop d _ _ _ _ _) as [[e i] v]. simpl in Hix.
  apply IH in Hrun.
  eapply grows_trans; [|eapply grows_trans; [exact Hcols|]].
  { by repeat split. }
  eapply grows_trans; [exact Hpk|]. eapply grows_trans; [exact Hfk|].
  eapply grows_trans; [exact Hix|]. eapply grows_trans; [|exact Hrun].
  by repeat split.
Qed.

(** X11: a run of [schemaToDDL] leaves the source schema and the target
    dialect of the conversion state as they were, and only adds to the
    diagnostics: those reported before the run are a prefix of those
    after it. *)
Theorem schemaToDDL_grows (conv : Conv.t) :
  ∃ conv',
    schemaToDDL conv = Some (conv', None)
    ∧ Conv.SrcSchema conv' = Conv.SrcSchema conv
    ∧ Conv.TargetDb conv' = Conv.TargetDb conv
    ∧ Conv.Reported conv `prefix_of` Conv.Reported conv'.
Proof.
  destruct (schemaToDDL_returns conv) as [conv' Hrun].
  exists conv'. split; [done|].
  unfold schemaToDDL in Hrun.
  pose proof (seedUsedNames_grows conv (Conv.SrcSchema conv) ∅) as Hseed.
  destruct (seedUsedNames conv _ _) as [c u]. simpl in *.
  destruct (cvtTables c _ u) as [[c' u']|] eqn:Htables; [|done].
  simpl in Hrun. simplify_eq.
  apply cvtTables_grows in Htables.
  destruct (grows_trans _ _ _ Hseed Htables) as (?&?&?). done.
Qed.
End Grows.

Section Registry.
Context `{!NameResolver, !NameAllocator, !Support}.

Lemma registry_Forall_reset P table issues :
  registry_Forall P issues → registry_Forall P (<[table := ∅]> issues).
Proof.
  intros Hreg t m col l Ht Hm.
  destruct (decide (table = t)) as [->|Hne].
  - rewrite lookup_insert_eq in Ht. by simplify_eq.
  - rewrite lookup_insert_ne in Ht by done. eauto.
Qed.

Lemma registry_Forall_insert (P : list SchemaIssue → Prop) table col l m issues :
  registry_Forall P issues →
  issues !! table = Some m →
  P l →
  registry_Forall P (<[table := <[col := l]> m]> issues).
Proof.
  intros Hreg Hm Hl t m' col' l' Ht Hm'.
  destruct (decide (table = t)) as [->|Hne].
  - rewrite lookup_insert_eq in Ht. simplify_eq.
    destruct (decide (col = col')) as [->|Hc].
    + rewrite lookup_insert_eq in Hm'. by simplify_eq.
    + rewrite lookup_insert_ne in Hm' by done. eauto.
  - rewrite lookup_insert_ne in Ht by done. eauto.
Qed.

Lemma cvtColumns_registry srcTable colNames :
  ∀ conv spColNames spColDef conv' spColNames' spColDef',
    registry_Forall (λ l, l ≠ []) (Conv.Issues conv) →
    cvtColumns conv srcTable colNames spColNames spColDef
      = Some (conv', spColNames', spColDef') →
    registry_Forall (λ l, l ≠ []) (Conv.Issues conv')
    ∧ ∀ table, is_Some (Conv.Issues conv !! table) →
               is_Some (Conv.Issues conv' !! table).
Proof.
  induction colNames as [|n colNames IH]; intros * Hreg Hrun; simpl in Hrun.
  { by simplify_eq. }
  destruct (GetSpannerCol _ _ _); [|by apply IH in Hrun].
  destruct (columnType conv _) as [ty issues].
  case_bool_decide as Hlen; simpl in Hrun; [|by apply IH in Hrun].
  unfold record_issues in Hrun.
  destruct (Conv.Issues conv !! schema.Table.Name srcTable) as [m|] eqn:Hm;
    [|done].
  simpl in Hrun. apply IH in Hrun as [Hreg' Hdom].
  - split; [done|]. intros table Htable. apply Hdom. simpl.
    destruct (decide (schema.Table.Name srcTable = table)) as [->|].
    + by rewrite lookup_insert_eq.
    + by rewrite lookup_insert_ne.
  - simpl. apply registry_Forall_insert; [done|done|].
    intros ->. simpl in Hlen. lia.
Qed.

Lemma cvtTables_registry tables :
  ∀ conv usedNames conv' usedNames',
    registry_Forall (λ l, l ≠ []) (Conv.Issues conv) →
    cvtTables conv tables usedNames = Some (conv', usedNames') →
    registry_Forall (λ l, l ≠ []) (Conv.Issues conv')
    ∧ (∀ table, is_Some (Conv.Issues conv !! table) →
                is_Some (Conv.Issues conv' !! table))
    ∧ ∀ t spTableName,
        t ∈ tables →
        GetSpannerTable (schema.Table.Name t) = Ok spTableName →
        is_Some (Conv.Issues conv' !! schema.Table.Name t).
Proof.
  induction tables as [|t tables IH]; intros * Hreg Hrun; simpl in Hrun.
  { simplify_eq. split_and!; [done|done|]. intros ?? Hin. by apply elem_of_nil in Hin. }
  destruct (GetSpannerTable (schema.Table.Name t)) as [spTableName|e] eqn:Hres.
  2:{ apply IH in Hrun as (Hreg' & Hdom & Hent); [|done].
      split_and!; [done|done|].
      intros t' sp Hin Hsp. apply elem_of_cons in Hin as [->|Hin]; [|by eauto].
      rewrite Hres in Hsp. done. }
  destruct (cvtColumns _ _ _ _ _) as [[[c ?] ?]|] eqn:Hcols; [|done].
  apply cvtColumns_registry in Hcols as [Hreg1 Hdom1];
    [|by apply registry_Forall_reset].
  simpl in Hrun, Hdom1.
  pose proof (cvtPrimaryKeys_loop_frame c (schema.Table.Name t)
                (schema.Table.PrimaryKeys t) []) as (_&_&Hi1&_).
  unfold cvtPrimaryKeys in Hrun.
  destruct (cvtPrimaryKeys_loop c _ _ _) as [c' pks]. simpl in Hi1.
  destruct (cvtForeignKeys c' _ _ _) as [[[d f] u]|] eqn:Hfk; [|done].
  apply cvtForeignKeys_loop_frame in Hfk as (_&_&Hi2&_). simpl in Hrun.
  pose proof (cvtIndexes_loop_frame d spTableName (schema.Table.Name t)
                (schema.Table.Indexes t) u []) as (_&_&Hi3&_).
  unfold cvtIndexes in Hrun.
  destruct (cvtIndexes_loop d _ _ _ _ _) as [[e i] v]. simpl in Hi3.
  assert (Conv.Issues e = Conv.Issues c) as Hi by (by rewrite <- Hi3, <- Hi2, <- Hi1).
  apply IH in Hrun as (Hreg' & Hdom & Hent); [|by simpl; rewrite Hi].
  simpl in Hdom. rewrite Hi in Hdom.
  assert (∀ table, is_Some (Conv.Issues conv !! table) →
                   is_Some (Conv.Issues conv' !! table)) as Hdom'.
  { intros table Htable. apply Hdom, Hdom1.
    destruct (decide (schema.Table.Name t = table)) as [->|].
    - by rewrite lookup_insert_eq.
    - by rewrite lookup_insert_ne. }
  split_and!; [done|done|].
  intros t' sp Hin Hsp. apply elem_of_cons in Hin as [->|Hin]; [|by eauto].
  apply Hdom, Hdom1. by rewrite lookup_insert_eq.
Qed.

(** X12: a run of [schemaToDDL] on a registry none of whose lists is
    empty (such as a fresh one) leaves a registry none of whose lists is
    empty, in which every source table that resolves has an entry, be it
    without any column. *)
Theorem schemaToDDL_registry (conv : Conv.t) :
  registry_Forall (λ l, l ≠ []) (Conv.Issues conv) →
  ∃ conv',
    schemaToDDL conv = Some (conv', None)
    ∧ registry_Forall (λ l, l ≠ []) (Conv.Issues conv')
    ∧ ∀ t spTableName,
        t ∈ Conv.SrcSchema conv →
        GetSpannerTable (schema.Table.Name t) = Ok spTableName →
        is_Some (Conv.Issues conv' !! schema.Table.Name t).
Proof.
  intros Hreg. destruct (schemaToDDL_returns conv) as [conv' Hrun].
  exists conv'. split; [done|].
  unfold schemaToDDL in Hrun.
  pose proof (seedUsedNames_frame conv (Conv.SrcSchema conv) ∅)
    as (Hs & _ & Hi & _).
  destruct (seedUsedNames conv _ _) as [c u]. simpl in *.
  destruct (cvtTables c _ u) as [[c' u']|] eqn:Htables; [|done].
  simpl in Hrun. simplify_eq. simpl.
  apply cvtTables_registry in Htables as (Hreg' & _ & Hent); [|by rewrite <- Hi].
  split; [done|]. rewrite Hs. done.
Qed.

(** *** The names seeded *)

(** X13: the seeding loop adds to [usedNames] exactly the Spanner names
    of the source tables that resolve: these are mapped to [true], and
    the entry of any other name is left as it was. *)
Theorem seedUsedNames_names (conv : Conv.t) (tables : list schema.Table.t)
    (usedNames : gmap string bool) (name : string) :
  (seedUsedNames conv tables usedNames).2 !! name
  = if bool_decide (name ∈ resolved_tables tables) then Some true
    else usedNames !! name.
Proof.
  revert conv usedNames.
  induction tables as [|t tables IH]; intros; cbn [seedUsedNames].
  { rewrite bool_decide_eq_false_2; [done|]. apply not_elem_of_nil. }
  unfold resolved_tables. rewrite omap_cons. fold (resolved_tables tables).
  destruct (GetSpannerTable (schema.Table.Name t)) as [sp|e]; cbn [resolved];
    [|apply IH].
  rewrite IH.
  destruct (decide (name ∈ resolved_tables tables)) as [Hin|Hout].
  { rewrite !bool_decide_eq_true_2; [done|by right|done]. }
  rewrite (bool_decide_eq_false_2 _ Hout).
  destruct (decide (name = sp)) as [->|Hne].
  - rewrite bool_decide_eq_true_2 by left. by rewrite lookup_insert_eq.
  - rewrite bool_decide_eq_false_2 by (by apply not_elem_of_cons).
    by rewrite lookup_insert_ne.
Qed.

(** *** The tables written *)

Lemma cvtTables_entries_aux tables :
  ∀ conv usedNames,
    ∃ conv' usedNames',
      cvtTables conv tables usedNames = Some (conv', usedNames')
      ∧ (∀ n, n ∉ resolved_tables tables →
              Conv.SpSchema conv' !! n = Conv.SpSchema conv !! n)
      ∧ (∀ n, n ∈ resolved_tables tables →
              ∃ ct, Conv.SpSchema conv' !! n = Some ct
                    ∧ ddl.CreateTable.Name ct = n).
Proof.
  induction tables as [|t tables IH]; intros.
  { exists conv, usedNames. split_and!; [done|done|].
    intros n Hn. by apply elem_of_nil in Hn. }
  cbn [cvtTables]. unfold resolved_tables. rewrite omap_cons.
  fold (resolved_tables tables).
  destruct (GetSpannerTable (schema.Table.Name t)) as [sp|e]; cbn [resolved].
  2:{ destruct (IH (Unexpected conv
          ("Couldn't map source table " +:+ schema.Table.Name t
           +:+ " to Spanner: " +:+ e)) usedNames)
        as (c' & u' & Hrun & Hout & Hin).
      exists c', u'. done. }
  destruct (cvtColumns _ _ _ _ _) as [[[c names] defs]|] eqn:Hcols.
  2:{ exfalso.
      destruct (cvtColumns_returns t (schema.Table.ColNames t)
        (set_Issues conv (<[schema.Table.Name t := ∅]> (Conv.Issues conv)))
        [] ∅) as [? Hsome]; [simpl; by rewrite lookup_insert_eq|].
      congruence. }
  apply cvtColumns_grows in Hcols as [_ Hsp0]. simpl in Hsp0.
  cbn [mbind option_bind].
  pose proof (cvtPrimaryKeys_loop_frame c (schema.Table.Name t)
                (schema.Table.PrimaryKeys t) []) as (_&Hsp1&_&_).
  unfold cvtPrimaryKeys.
  destruct (cvtPrimaryKeys_loop c _ _ _) as [c1 pks]. simpl in Hsp1.
  destruct (cvtForeignKeys_loop_returns (schema.Table.Name t)
              (schema.Table.ForeignKeys t) c1 usedNames []) as [[[d f] u] Hfk].
  unfold cvtForeignKeys. rewrite Hfk. cbn [mbind option_bind].
  apply cvtForeignKeys_loop_frame in Hfk as (_&Hsp2&_&_).
  pose proof (cvtIndexes_loop_frame d sp (schema.Table.Name t)
                (schema.Table.Indexes t) u []) as (_&Hsp3&_&_).
  unfold cvtIndexes.
  destruct (cvtIndexes_loop d _ _ _ _ _) as [[e i] v]. simpl in Hsp3.
  assert (Conv.SpSchema e = Conv.SpSchema conv) as Hsp
    by (by rewrite <- Hsp3, <- Hsp2, <- Hsp1).
  match goal with
  | |- ∃ _ _, cvtTables ?c1 _ _ = _ ∧ _ =>
      destruct (IH c1 v) as (c' & u' & Hrun & Hout & Hin)
  end.
  simpl in Hout, Hin. rewrite Hsp in Hout.
  exists c', u'. split; [done|]. split.
  - intros n Hn. apply not_elem_of_cons in Hn as [Hne Hn].
    rewrite Hout by done. by rewrite lookup_insert_ne.
  - intros n Hn.
    destruct (decide (n ∈ resolved_tables tables)) as [Hn'|Hn']; [by apply Hin|].
    apply elem_of_cons in Hn as [->|]; [|done].
    rewrite Hout by done. rewrite lookup_insert_eq. eauto.
Qed.

(** X14: the conversion loop never panics; it leaves the entry of the
    target schema under any name that is not the Spanner name of one of
    the tables as it was, and under the Spanner name of each table that
    resolves it leaves a table whose [Name] is that name. *)
Theorem cvtTables_entries (conv : Conv.t) (tables : list schema.Table.t)
    (usedNames : gmap string bool) :
  ∃ conv' usedNames',
    cvtTables conv tables usedNames = Some (conv', usedNames')
    ∧ (∀ n, n ∉ resolved_tables tables →
            Conv.SpSchema conv' !! n = Conv.SpSchema conv !! n)
    ∧ (∀ n, n ∈ resolved_tables tables →
            ∃ ct, Conv.SpSchema conv' !! n = Some ct
                  ∧ ddl.CreateTable.Name ct = n).
Proof. apply cvtTables_entries_aux. Qed.

(** *** The columns written *)

Lemma cvtColumns_consistent_aux srcTable colNames :
  ∀ conv spColNames spColDef conv' spColNames' spColDef',
    cvtColumns conv srcTable colNames spColNames spColDef
      = Some (conv', spColNames', spColDef') →
    spColNames' = spColNames ++ omap (resolve_column srcTable) colNames
    ∧ (∀ n, is_Some (spColDef' !! n)
            ↔ is_Some (spColDef !! n)
              ∨ n ∈ omap (resolve_column srcTable) colNames)
    ∧ (∀ n cd, spColDef' !! n = Some cd →
               spColDef !! n = Some cd ∨ ddl.ColumnDef.Name cd = n).
Proof.
  induction colNames as [|srcColName colNames IH]; intros * Hrun.
  { simpl in Hrun. simplify_eq. rewrite app_nil_r. split_and!; [done| |by left].
    intros n. split; [by left|]. intros [?|Hn]; [done|].
    by apply elem_of_nil in Hn. }
  cbn [cvtColumns] in Hrun. rewrite omap_cons.
  assert (resolve_column srcTable srcColName
          = resolved (GetSpannerCol (schema.Table.Name srcTable)
              (schema.Column.Name
                 (default schema.Column.zero
                    (schema.Table.ColDefs srcTable !! srcColName))) false))
    as -> by done.
  destruct (GetSpannerCol _ _ _) as [colName|e]; cbn [resolved].
  2:{ by apply IH in Hrun. }
  destruct (columnType conv _) as [ty issues].
  destruct (if bool_decide (0 < length issues) then _ else _) as [c|];
    [|done].
  cbn [mbind option_bind] in Hrun.
  apply IH in Hrun as (-> & Hdom & Hname).
  split_and!.
  - by rewrite <- (assoc_L (++)).
  - intros n. rewrite Hdom, elem_of_cons.
    destruct (decide (colName = n)) as [->|Hne].
    + rewrite lookup_insert_eq. intuition eauto.
    + rewrite lookup_insert_ne by done. intuition congruence.
  - intros n cd Hcd. destruct (Hname n cd Hcd) as [Hins|?]; [|by right].
    destruct (decide (colName = n)) as [->|Hne].
    + rewrite lookup_insert_eq in Hins. simplify_eq. by right.
    + rewrite lookup_insert_ne in Hins by done. by left.
Qed.

(** X15: the column loop, run on a table that has a registry entry,
    returns as column names the Spanner names of the listed columns that
    resolve, in order, and a map of column definitions whose keys are
    exactly these names, each definition carrying its key as [Name]. *)
Theorem cvtColumns_consistent (conv : Conv.t) (srcTable : schema.Table.t) :
  is_Some (Conv.Issues conv !! schema.Table.Name srcTable) →
  ∃ conv' spColNames spColDef,
    cvtColumns conv srcTable (schema.Table.ColNames srcTable) [] ∅
      = Some (conv', spColNames, spColDef)
    ∧ spColNames
      = omap (resolve_column srcTable) (schema.Table.ColNames srcTable)
    ∧ (∀ n, n ∈ spColNames ↔ is_Some (spColDef !! n))
    ∧ (∀ n cd, spColDef !! n = Some cd → ddl.ColumnDef.Name cd = n).
Proof.
  intros Hreg.
  destruct (cvtColumns_returns srcTable (schema.Table.ColNames srcTable)
              conv [] ∅ Hreg) as [[[c names] defs] Hrun].
  exists c, names, defs. split; [done|].
  apply cvtColumns_consistent_aux in Hrun as (-> & Hdom & Hname).
  simpl. split_and!; [done| |].
  - intros n. rewrite Hdom, lookup_empty. split; [by right|].
    intros [[? ?]|?]; done.
  - intros n cd Hcd. destruct (Hname n cd Hcd) as [Hempty|?]; [|done].
    by rewrite lookup_empty in Hempty.
Qed.
End Registry.

Section Tables.
Context `{!NameResolver, !NameAllocator, !Support}.

Lemma cvtColumns_issues_aux srcTable colNames :
  ∀ conv spColNames spColDef conv' spColNames' spColDef' m,
    Conv.Issues conv !! schema.Table.Name srcTable = Some m →
    cvtColumns conv srcTable colNames spColNames spColDef
      = Some (conv', spColNames', spColDef') →
    ∃ m',
      Conv.Issues conv' !! schema.Table.Name srcTable = Some m'
      ∧ ∀ col l, m' !! col = Some l →
          m !! col = Some l
          ∨ ∃ srcColName,
              srcColName ∈ colNames
              ∧ is_Some (resolve_column srcTable srcColName)
              ∧ let srcCol :=
                  default schema.Column.zero
                    (schema.Table.ColDefs srcTable !! srcColName) in
                schema.Column.Name srcCol = col
                ∧ l = (columnType conv srcCol).2.
Proof.
  induction colNames as [|n colNames IH]; intros * Hm Hrun.
  { simpl in Hrun. simplify_eq. exists m. split; [done|]. by left. }
  cbn [cvtColumns] in Hrun.
  destruct (GetSpannerCol _ _ _) as [colName|e] eqn:Hcol.
  2:{ eapply IH in Hrun as (m' & Hm' & Hsound); [|exact Hm].
      exists m'. split; [done|]. intros col l Hl.
      destruct (Hsound col l Hl) as [?|(x & Hx & Hres & Hname & Hiss)]; [by left|].
      right. exists x. split; [by right|]. done. }
  assert (is_Some (resolve_column srcTable n)) as Hres.
  { unfold resolve_column. by rewrite Hcol. }
  destruct (columnType conv _) as [ty issues] eqn:Hty.
  case_bool_decide as Hlen; cbn [mbind option_bind] in Hrun.
  - unfold record_issues in Hrun. rewrite Hm in Hrun.
    cbn [mbind option_bind] in Hrun.
    eapply IH in Hrun as (m' & Hm' & Hsound);
      [|simpl; by rewrite lookup_insert_eq].
    exists m'. split; [done|]. intros col l Hl.
    destruct (Hsound col l Hl) as [Hins|(x & Hx & Hresx & Hname & Hiss)].
    + destruct (decide (schema.Column.Name
          (default schema.Column.zero (schema.Table.ColDefs srcTable !! n)) = col))
        as [Heq|Hne].
      * rewrite <- Heq, lookup_insert_eq in Hins. simplify_eq.
        right. exists n. split; [by left|]. split; [done|]. simpl.
        split; [done|]. by rewrite Hty.
      * rewrite lookup_insert_ne in Hins by done. by left.
    + right. exists x. split; [by right|]. split; [done|]. simpl in *.
      split; [done|]. exact Hiss.
  - eapply IH in Hrun as (m' & Hm' & Hsound); [|exact Hm].
    exists m'. split; [done|]. intros col l Hl.
    destruct (Hsound col l Hl) as [?|(x & Hx & Hresx & Hname & Hiss)]; [by left|].
    right. exists x. split; [by right|]. done.
Qed.

(** X16: after the column loop, run on a table whose registry entry is
    empty, every list of issues recorded for the table is the list
    [columnType] gives for a listed column that resolves, recorded under
    the [Name] of that column. *)
Theorem cvtColumns_issues (conv : Conv.t) (srcTable : schema.Table.t) :
  Conv.Issues conv !! schema.Table.Name srcTable = Some ∅ →
  ∃ conv' spColNames spColDef m,
    cvtColumns conv srcTable (schema.Table.ColNames srcTable) [] ∅
      = Some (conv', spColNames, spColDef)
    ∧ Conv.Issues conv' !! schema.Table.Name srcTable = Some m
    ∧ ∀ col l, m !! col = Some l →
        ∃ srcColName,
          srcColName ∈ schema.Table.ColNames srcTable
          ∧ is_Some (resolve_column srcTable srcColName)
          ∧ let srcCol :=
              default schema.Column.zero
                (schema.Table.ColDefs srcTable !! srcColName) in
            schema.Column.Name srcCol = col
            ∧ l = (columnType conv srcCol).2.
Proof.
  intros Hreg.
  destruct (cvtColumns_returns srcTable (schema.Table.ColNames srcTable)
              conv [] ∅) as [[[c names] defs] Hrun]; [by rewrite Hreg|].
  destruct (cvtColumns_issues_aux _ _ _ _ _ _ _ _ _ Hreg Hrun)
    as (m & Hm & Hsound).
  exists c, names, defs, m. split_and!; [done|done|].
  intros col l Hl. destruct (Hsound col l Hl) as [Hempty|?]; [|done].
  by rewrite lookup_empty in Hempty.
Qed.

(** X17: for a source table that resolves to a Spanner name to which no
    later table resolves, the conversion loop leaves under that name the
    table built from it: its column names are those of the listed
    columns that resolve, its primary key the key columns that resolve,
    its foreign keys those of the source keys that are not dropped
    whole, and its indexes one per source index. *)
Theorem cvtTables_table (conv : Conv.t) (before after : list schema.Table.t)
    (t : schema.Table.t) (usedNames : gmap string bool) (spTableName : string) :
  GetSpannerTable (schema.Table.Name t) = Ok spTableName →
  spTableName ∉ resolved_tables after →
  ∃ conv' usedNames' ct,
    cvtTables conv (before ++ t :: after) usedNames = Some (conv', usedNames')
    ∧ Conv.SpSchema conv' !! spTableName = Some ct
    ∧ ddl.CreateTable.Name ct = spTableName
    ∧ ddl.CreateTable.ColNames ct
      = omap (resolve_column t) (schema.Table.ColNames t)
    ∧ ddl.CreateTable.Pks ct
      = omap (resolve_key (schema.Table.Name t)) (schema.Table.PrimaryKeys t)
    ∧ ddl.Foreignkey.ReferTable <$> ddl.CreateTable.Fks ct
      = omap kept_table (schema.Table.ForeignKeys t)
    ∧ index_shape <$> ddl.CreateTable.Indexes ct
      = (λ idx, (spTableName, schema.Index.Unique idx,
                 omap (resolve_key (schema.Table.Name t)) (schema.Index.Keys idx)))
          <$> schema.Table.Indexes t.
Proof.
  intros Hres Hafter.
  destruct (cvtTables_entries conv before usedNames) as (c1 & u1 & Hrun1 & _ & _).
  rewrite cvtTables_app, Hrun1. cbn [mbind option_bind cvtTables].
  rewrite Hres.
  destruct (cvtColumns_returns t (schema.Table.ColNames t)
    (set_Issues c1 (<[schema.Table.Name t := ∅]> (Conv.Issues c1))) [] ∅)
    as [[[c2 names] defs] Hcols]; [simpl; by rewrite lookup_insert_eq|].
  rewrite Hcols. cbn [mbind option_bind].
  apply cvtColumns_consistent_aux in Hcols as (Hnames & _ & _).
  rewrite cvtPrimaryKeys_spec.
  destruct (cvtForeignKeys_kept
              (reports c2
                 (replicate
                    (unresolved_keys (schema.Table.Name t) (schema.Table.PrimaryKeys t))
                    ("Can't map key for table " +:+ schema.Table.Name t)))
              (schema.Table.Name t) (schema.Table.ForeignKeys t) u1)
    as (c3 & fks & u3 & Hfk & Htab & _).
  rewrite Hfk. cbn [mbind option_bind].
  pose proof (cvtIndexes_shape c3 spTableName (schema.Table.Name t)
                (schema.Table.Indexes t) u3) as Hshape.
  destruct (cvtIndexes c3 _ _ _ _) as [[c4 ixs] u4]. simpl in Hshape.
  match goal with
  | |- ∃ _ _ _, cvtTables ?c _ _ = _ ∧ _ =>
      destruct (cvtTables_entries c after u4) as (c' & u' & Hrun & Hout & _)
  end.
  rewrite Hrun. eexists c', u', _. split; [done|].
  rewrite (Hout _ Hafter). simpl. rewrite lookup_insert_eq.
  split; [done|]. simpl. done.
Qed.
End Tables.

Lemma schemaToDDL_registry_witness :
  ∃ conv',
    @schemaToDDL example.resolver allocator.spec_allocator example.support
      (example.fresh [example.orders; example.customers] "spanner")
      = Some (conv', None)
    ∧ registry_Forall (λ l, l ≠ []) (Conv.Issues conv').
Proof.
  destruct (@schemaToDDL_registry
              example.resolver allocator.spec_allocator example.support
              (example.fresh [example.orders; example.customers] "spanner"))
    as (conv' & Hrun & Hreg & _).
  - intros table m col l Htable. simpl in Htable.
    rewrite lookup_empty in Htable. discriminate.
  - exists conv'. split; [exact Hrun|exact Hreg].
Defined.

Lemma cvtColumns_consistent_witness :
  ∃ conv' spColNames spColDef,
    @cvtColumns example.resolver example.support
      (set_Issues (example.fresh [example.orders] "spanner") {["orders" := ∅]})
      example.orders (schema.Table.ColNames example.orders) [] ∅
    = Some (conv', spColNames, spColDef)
    ∧ spColNames
      = omap (@resolve_column example.resolver example.orders)
          (schema.Table.ColNames example.orders).
Proof.
  destruct (@cvtColumns_consistent example.resolver example.support
              (set_Issues (example.fresh [example.orders] "spanner")
                 {["orders" := ∅]})
              example.orders)
    as (conv' & names & defs & Hrun & Hnames & _).
  - vm_compute. eexists. reflexivity.
  - exists conv', names, defs. split; [exact Hrun|exact Hnames].
Defined.

Lemma cvtColumns_issues_witness :
  ∃ conv' spColNames spColDef m,
    @cvtColumns example.resolver example.support
      (set_Issues (example.fresh [example.orders] "spanner") {["orders" := ∅]})
      example.orders (schema.Table.ColNames example.orders) [] ∅
    = Some (conv', spColNames, spColDef)
    ∧ Conv.Issues conv' !! schema.Table.Name example.orders = Some m.
Proof.
  destruct (@cvtColumns_issues example.resolver example.support
              (set_Issues (example.fresh [example.orders] "spanner")
                 {["orders" := ∅]})
              example.orders)
    as (conv' & names & defs & m & Hrun & Hm & _).
  - vm_compute. reflexivity.
  - exists conv', names, defs, m. split; [exact Hrun|exact Hm].
Defined.

Lemma cvtTables_table_witness :
  ∃ conv' usedNames' ct,
    @cvtTables example.resolver allocator.spec_allocator example.support
      (example.fresh [example.orders; example.customers] "spanner")
      ([] ++ example.orders :: [example.customers]) ∅
    = Some (conv', usedNames')
    ∧ Conv.SpSchema conv' !! "orders" = Some ct
    ∧ ddl.CreateTable.ColNames ct
      = omap (@resolve_column example.resolver example.orders)
          (schema.Table.ColNames example.orders).
Proof.
  destruct (@cvtTables_table example.resolver allocator.spec_allocator
              example.support
              (example.fresh [example.orders; example.customers] "spanner")
              [] [example.customers] example.orders ∅ "orders")
    as (conv' & u' & ct & Hrun & Hct & _ & Hcols & _).
  - reflexivity.
  - vm_compute. intros Hin. apply list_elem_of_In in Hin. simpl in Hin.
    intuition discriminate.
  - exists conv', u', ct. split; [exact Hrun|]. split; [exact Hct|exact Hcols].
Defined.
